(** * Polyomino enumerator: a shallow embedding of [polyomino.cpp]

    The development follows the classes of the source one by one:
    [Point], [Polyomino] (normalisation, rotation, reflection, rendering and
    the lexicographic order on cell vectors), [ShapeNormalizer::getCanonical],
    [ShapeGenerator::isAdjacent], [getExtensions] and [enumerate],
    [InputValidator::validateConfig] and [validateResults].

    Modelling conventions.
    - C++ [int] coordinates are integers of [Z].  Signed overflow is undefined
      behaviour in C++, so no wrap-around is modelled: the model is exact
      wherever every intermediate value is representable.  That is the case
      for the coordinates the enumerator builds (between [-1] and [N]) and
      for [rotate], [reflect] and [normalize] on normalized shapes.  Theorems
      about vectors or shapes supplied by a caller carry the range condition
      as a hypothesis ([normalize_fits], [neighbours_fit], [box_fits]).
    - [std::vector<Point>] is [list Point].
    - [std::sort] is modelled by insertion sort.  [Point::operator<] is a
      strict total order whose incomparable elements are equal, hence every
      correct sorting routine returns the same vector ([sort_unique]).
    - [std::set<T>] ordered by [operator<] is a strictly increasing list;
      [insert] is ordered insertion that absorbs an equivalent key.
    - [size_t total_generated] is a [nat]: 2^64 increments are out of reach. *)

From Stdlib Require Import ZArith List String Ascii Bool Lia Permutation Sorted.
From Stdlib Require Import Relations.Relation_Operators.
Import ListNotations.
Open Scope Z_scope.

(* ================================================================== *)
(** ** Point *)

Record Point : Type := mkPoint { px : Z; py : Z }.

(** [Point::operator<] *)
Definition Point_ltb (a b : Point) : bool :=
  (px a <? px b) || ((px a =? px b) && (py a <? py b)).

(** [Point::operator==] *)
Definition Point_eqb (a b : Point) : bool :=
  (px a =? px b) && (py a =? py b).

(** [Point::operator+] *)
Definition Point_add (a b : Point) : Point :=
  mkPoint (px a + px b) (py a + py b).

(* ================================================================== *)
(** ** Generic containers: [std::sort], [std::set], [std::min_element] *)

Section Ordered.
Variable A : Type.
Variable ltb : A -> A -> bool.

(** Insertion of one element in front of the first strictly greater one. *)
Fixpoint sort_insert (x : A) (l : list A) : list A :=
  match l with
  | [] => [x]
  | y :: l' => if ltb y x then y :: sort_insert x l' else x :: l
  end.

(** [std::sort(begin, end)] with [operator<]. *)
Fixpoint sort (l : list A) : list A :=
  match l with
  | [] => []
  | x :: l' => sort_insert x (sort l')
  end.

(** [std::set<A>::insert]: keys equivalent to a stored key are dropped. *)
Fixpoint set_insert (x : A) (s : list A) : list A :=
  match s with
  | [] => [x]
  | y :: s' =>
      if ltb x y then x :: s
      else if ltb y x then y :: set_insert x s'
      else s
  end.

(** The loop of [std::min_element]: keep the first smallest element. *)
Definition min_element_from (smallest : A) (rest : list A) : A :=
  fold_left (fun sm it => if ltb it sm then it else sm) rest smallest.

(** [std::min_element(begin, end)]; [None] stands for the [end] iterator. *)
Definition min_element (l : list A) : option A :=
  match l with
  | [] => None
  | x :: rest => Some (min_element_from x rest)
  end.

(** [std::lexicographical_compare], the order of [std::vector<A>]. *)
Fixpoint vector_ltb (a b : list A) : bool :=
  match a, b with
  | _, [] => false
  | [], _ :: _ => true
  | x :: a', y :: b' =>
      if ltb x y then true
      else if ltb y x then false
      else vector_ltb a' b'
  end.
(** [operator==] of [std::vector<A>]: same size and equal elements. *)
Fixpoint vector_eqb (eqb : A -> A -> bool) (a b : list A) : bool :=
  match a, b with
  | [], [] => true
  | x :: a', y :: b' => eqb x y && vector_eqb eqb a' b'
  | _, _ => false
  end.

(** "Not greater": the weak order that [std::sort] establishes. *)
Definition leb_of (x y : A) : Prop := ltb y x = false.

(** "Less": the strict order that a [std::set] keeps its keys in. *)
Definition ltb_of (x y : A) : Prop := ltb x y = true.
End Ordered.

Arguments sort_insert {A} ltb x l.
Arguments sort {A} ltb l.
Arguments set_insert {A} ltb x s.
Arguments min_element_from {A} ltb smallest rest.
Arguments min_element {A} ltb l.
Arguments vector_ltb {A} ltb a b.
Arguments vector_eqb {A} eqb a b.

(** [v[i] = x] on a vector or a string; a write outside the bounds, undefined
    in the source, changes nothing. *)
Fixpoint vec_set {A : Type} (i : nat) (x : A) (v : list A) : list A :=
  match v, i with
  | [], _ => []
  | _ :: v', O => x :: v'
  | y :: v', S i' => y :: vec_set i' x v'
  end.

(* ================================================================== *)
(** ** Polyomino *)

(** The class has the single data member [cells]. *)
Definition Polyomino : Type := list Point.

Definition getCells (p : Polyomino) : list Point := p.

(** [Polyomino::size] *)
Definition size (p : Polyomino) : nat := List.length p.

(** The two running minima of [normalize]. *)
Definition min_x_of (cells : list Point) (init : Z) : Z :=
  fold_left (fun m cell => Z.min m (px cell)) cells init.

Definition min_y_of (cells : list Point) (init : Z) : Z :=
  fold_left (fun m cell => Z.min m (py cell)) cells init.

(** [Polyomino::normalize]: translate to the origin, then sort. *)
Definition normalize (cells : list Point) : list Point :=
  match cells with
  | [] => []
  | c0 :: _ =>
      let min_x := min_x_of cells (px c0) in
      let min_y := min_y_of cells (py c0) in
      sort Point_ltb
        (map (fun cell => mkPoint (px cell - min_x) (py cell - min_y)) cells)
  end.

(** [explicit Polyomino(const std::vector<Point>&)] *)
Definition mkPolyomino (points : list Point) : Polyomino := normalize points.

(** [Polyomino::addCell] *)
Definition addCell (poly : Polyomino) (p : Point) : Polyomino :=
  normalize (poly ++ [p]).

(** [rotated.emplace_back(p.y, -p.x)] *)
Definition rotate_cell (p : Point) : Point := mkPoint (py p) (- px p).

(** [reflected.emplace_back(-p.x, p.y)] *)
Definition reflect_cell (p : Point) : Point := mkPoint (- px p) (py p).

(** [Polyomino::rotate]: 90 degrees clockwise. *)
Definition rotate (poly : Polyomino) : Polyomino :=
  mkPolyomino (map rotate_cell poly).

(** [Polyomino::reflect]: horizontal flip. *)
Definition reflect (poly : Polyomino) : Polyomino :=
  mkPolyomino (map reflect_cell poly).

(** [Polyomino::operator<] *)
Definition Polyomino_ltb (a b : Polyomino) : bool := vector_ltb Point_ltb a b.

(** [Polyomino::operator==] *)
Definition Polyomino_eqb (a b : Polyomino) : bool := vector_eqb Point_eqb a b.

(** The bounding box of [toString]: both maxima start from [0]. *)
Definition max_x_of (cells : list Point) : Z :=
  fold_left (fun m p => Z.max m (px p)) cells 0.

Definition max_y_of (cells : list Point) : Z :=
  fold_left (fun m p => Z.max m (py p)) cells 0.

(** [grid[p.y][p.x] = '#'].  The indices are in range whenever both
    coordinates are non-negative, which the class invariant guarantees; a
    negative index is undefined behaviour in the source and leaves the grid
    unchanged here. *)
Definition grid_mark (grid : list (list ascii)) (p : Point)
  : list (list ascii) :=
  if (px p <? 0) || (py p <? 0) then grid
  else
    let y := Z.to_nat (py p) in
    let x := Z.to_nat (px p) in
    vec_set y (vec_set x "#"%char (nth y grid [])) grid.

(** The grid of [toString] once every cell is marked. *)
Definition toString_grid (poly : Polyomino) : list (list ascii) :=
  let max_x := max_x_of (getCells poly) in
  let max_y := max_y_of (getCells poly) in
  let grid := repeat (repeat " "%char (Z.to_nat (max_x + 1)))
                     (Z.to_nat (max_y + 1)) in
  fold_left grid_mark (getCells poly) grid.

(** The line feed that ends every row. *)
Definition newline : ascii := ascii_of_nat 10.

(** [Polyomino::toString]; a [std::string] is the list of its characters. *)
Definition toString (poly : Polyomino) : list ascii :=
  match getCells poly with
  | [] => []
  | _ :: _ =>
      fold_left (fun result row => result ++ row ++ [newline])
                (toString_grid poly) []
  end.

(* ================================================================== *)
(** ** ShapeNormalizer *)

(** The loop [for (i = 0; i < n; ++i)] that pushes [current] and rotates it. *)
Fixpoint push_rotations (n : nat) (current : Polyomino) : list Polyomino :=
  match n with
  | O => []
  | S n' => current :: push_rotations n' (rotate current)
  end.

(** Whether [getCanonical] pushes the four reflected variants. *)
Definition adds_reflections (enumeration_type : string) : bool :=
  (String.eqb enumeration_type "free"
   || String.eqb enumeration_type "one-sided")%bool.

Definition variants_of (enumeration_type : string) (shape : Polyomino)
  : list Polyomino :=
  let variants := push_rotations 4 shape in
  if adds_reflections enumeration_type
  then variants ++ push_rotations 4 (reflect shape)
  else variants.

(** [ShapeNormalizer::getCanonical].  The vector of variants always starts
    with [shape], so the [None] branch is never taken. *)
Definition getCanonical (enumeration_type : string) (shape : Polyomino)
  : Polyomino :=
  match min_element Polyomino_ltb (variants_of enumeration_type shape) with
  | Some smallest => smallest
  | None => shape
  end.

(* ================================================================== *)
(** ** ShapeGenerator *)

Definition directions : list Point :=
  [mkPoint 0 1; mkPoint 0 (-1); mkPoint 1 0; mkPoint (-1) 0].

(** [ShapeGenerator::isAdjacent] *)
Definition isAdjacent (poly : Polyomino) (p : Point) : bool :=
  existsb (fun cell =>
    existsb (fun dir => Point_eqb (Point_add cell dir) p) directions)
    (getCells poly).

(** Body of the inner loop of the candidate search in [getExtensions]. *)
Definition add_candidate (poly : Polyomino) (cell : Point)
    (candidates : list Point) (dir : Point) : list Point :=
  let candidate := Point_add cell dir in
  let already_exists := existsb (fun existing => Point_eqb existing candidate)
                                (getCells poly) in
  if negb already_exists then set_insert Point_ltb candidate candidates
  else candidates.

Definition collect_candidates (poly : Polyomino) : list Point :=
  fold_left (fun candidates cell =>
               fold_left (add_candidate poly cell) directions candidates)
            (getCells poly) [].

(** [ShapeGenerator::getExtensions] *)
Definition getExtensions (poly : Polyomino) : list Polyomino :=
  map (fun candidate => addCell poly candidate) (collect_candidates poly).

(** Configuration: the two fields the engine reads. *)
Record Config : Type := mkConfig { N : Z; type : string }.

(** The locals of [enumerate] that survive one iteration of the outer loop. *)
Record EnumState : Type := mkEnumState {
  shapes_by_size : list (list Polyomino);
  total_generated : nat
}.

(** Body of [for (const auto& ext : extensions)]; the progress report has
    no effect on the data. *)
Definition process_extension (normalizer : string)
    (acc : list Polyomino * nat) (ext : Polyomino) : list Polyomino * nat :=
  let (next_size_shapes, total) := acc in
  let total := S total in
  let canonical := getCanonical normalizer ext in
  (set_insert Polyomino_ltb canonical next_size_shapes, total).

(** Body of [for (const auto& shape : shapes_by_size[size])]. *)
Definition process_shape (normalizer : string)
    (acc : list Polyomino * nat) (shape : Polyomino) : list Polyomino * nat :=
  fold_left (process_extension normalizer) (getExtensions shape) acc.

(** One iteration of [for (int size = 1; size < config.N; ++size)]. *)
Definition grow_step (normalizer : string) (st : EnumState) (size : nat)
  : EnumState :=
  let (next_size_shapes, total) :=
    fold_left (process_shape normalizer)
              (nth size (shapes_by_size st) [])
              ([], total_generated st) in
  mkEnumState (vec_set (S size) next_size_shapes (shapes_by_size st)) total.

(** State on entry of the loop: [N + 1] empty sets, the single cell at
    index 1, and the counter at zero. *)
Definition initial_state (n : nat) : EnumState :=
  mkEnumState
    (vec_set 1 (set_insert Polyomino_ltb (mkPolyomino [mkPoint 0 0]) [])
             (repeat [] (S n)))
    0.

(** State after the iterations [size = 1 .. j] of the loop. *)
Definition state_after (normalizer : string) (n j : nat) : EnumState :=
  fold_left (grow_step normalizer) (seq 1 j) (initial_state n).

(** [ShapeGenerator::enumerate].  [config.N < 1] is rejected by
    [InputValidator::validateConfig] before the generator is built (the
    write to [shapes_by_size[1]] would be out of bounds); it is [None] here. *)
Definition enumerate (config : Config) : option (list Polyomino) :=
  if N config <? 1 then None
  else
    let n := Z.to_nat (N config) in
    Some (nth n (shapes_by_size (state_after (type config) n (n - 1))) []).

(* ================================================================== *)
(** ** InputValidator and the known values *)

(** [InputValidator::validateConfig] *)
Definition validateConfig (config : Config) : bool :=
  if (N config <? 1) || (N config >? 20) then false
  else if negb (String.eqb (type config) "free")
          && negb (String.eqb (type config) "one-sided")
          && negb (String.eqb (type config) "fixed")
  then false
  else true.

Module TestCase.
Record TestCase : Type := mk { n : Z; t : string; expected : Z }.
End TestCase.

(** The table [known_values] of [validateResults]. *)
Definition known_values : list TestCase.TestCase :=
  [
    TestCase.mk 1 "free" 1;
    TestCase.mk 2 "free" 1;
    TestCase.mk 3 "free" 2;
    TestCase.mk 4 "free" 5;
    TestCase.mk 5 "free" 12;
    TestCase.mk 6 "free" 35;
    TestCase.mk 7 "free" 108;
    TestCase.mk 8 "free" 369;
    TestCase.mk 9 "free" 1285;
    TestCase.mk 10 "free" 4655;
    TestCase.mk 11 "free" 17414;
    TestCase.mk 12 "free" 63600;
    TestCase.mk 13 "free" 235276;
    TestCase.mk 14 "free" 878570;
    TestCase.mk 15 "free" 3287604;
    TestCase.mk 16 "free" 12408500;
    TestCase.mk 17 "free" 47160284;
    TestCase.mk 18 "free" 179862604;
    TestCase.mk 19 "free" 688626106;
    TestCase.mk 20 "free" 2646244748;
    TestCase.mk 21 "free" 10185113832;
    TestCase.mk 22 "free" 39253596008;
    TestCase.mk 23 "free" 151681137845;
    TestCase.mk 24 "free" 586318555560;
    TestCase.mk 25 "free" 2271460081634;
    TestCase.mk 26 "free" 8818899287013;
    TestCase.mk 27 "free" 34292650679456;
    TestCase.mk 28 "free" 133943708915991
  ].

(** The three messages [validateResults] can print. *)
Inductive ValidationOutcome : Type :=
  | ValidationPassed
  | ValidationFailed (expected got : Z)
  | NoValidationData.

(** The loop over the table: the first matching entry decides. *)
Fixpoint validate_loop (n : Z) (type : string) (count : Z)
    (tests : list TestCase.TestCase) : ValidationOutcome :=
  match tests with
  | [] => NoValidationData
  | test :: rest =>
      if (TestCase.n test =? n) && String.eqb (TestCase.t test) type
      then if count =? TestCase.expected test
           then ValidationPassed
           else ValidationFailed (TestCase.expected test) count
      else validate_loop n type count rest
  end.

(** [validateResults], returning the message instead of printing it. *)
Definition validateResults (n : Z) (type : string) (count : Z)
  : ValidationOutcome :=
  validate_loop n type count known_values.

(* ================================================================== *)
(** * Vocabulary of the properties *)

(** The weak cell order, "not greater". *)
Definition Point_le : Point -> Point -> Prop := leb_of Point Point_ltb.

(** The translation step of [normalize]. *)
Definition translate (dx dy : Z) (cell : Point) : Point :=
  mkPoint (px cell - dx) (py cell - dy).

(** The running minimum of a coordinate, as [normalize] computes it. *)
Definition running_min (key : Point -> Z) (cells : list Point) (init : Z) : Z :=
  fold_left (fun m cell => Z.min m (key cell)) cells init.

(** [m] is the least [x] (resp. [y]) coordinate occurring in [cells]. *)
Definition is_min_x (cells : list Point) (m : Z) : Prop :=
  (forall c, In c cells -> m <= px c) /\ (exists c, In c cells /\ px c = m).

Definition is_min_y (cells : list Point) (m : Z) : Prop :=
  (forall c, In c cells -> m <= py c) /\ (exists c, In c cells /\ py c = m).

(** The class invariant: sorted, and touching both axes. *)
Definition normalized (cells : list Point) : Prop :=
  StronglySorted Point_le cells /\
  (cells <> [] -> is_min_x cells 0 /\ is_min_y cells 0).

(** A cell map that sends translates to translates. *)
Definition equivariant (f : Point -> Point) : Prop :=
  forall dx dy, exists dx' dy',
    forall c, f (translate dx dy c) = translate dx' dy' (f c).

(** Transform every cell, then rebuild the [Polyomino]. *)
Definition image (f : Point -> Point) (poly : Polyomino) : Polyomino :=
  mkPolyomino (map f poly).

(** [b] is one of the four edge neighbours of [a]. *)
Definition neighbour (a b : Point) : Prop :=
  exists dir, In dir directions /\ Point_add a dir = b.

(** One move between two edge-adjacent cells of the shape. *)
Definition step (cells : list Point) (a b : Point) : Prop :=
  In a cells /\ In b cells /\ neighbour a b.

(** Edge-connectivity: any two cells are joined by a chain of moves. *)
Definition connected (cells : list Point) : Prop :=
  forall a b, In a cells -> In b cells ->
    clos_refl_trans Point (step cells) a b.

(** All raw growths of one level, in the order the loops produce them. *)
Definition growths (level : list Polyomino) : list Polyomino :=
  flat_map getExtensions level.

(** The three modes of the specification and their source-level names. *)
Inductive EquivalenceMode : Type :=
  | ModeNone
  | RotationOnly
  | RotationAndReflection.

Definition type_name (mode : EquivalenceMode) : string :=
  match mode with
  | ModeNone => "fixed"
  | RotationOnly => "one-sided"
  | RotationAndReflection => "free"
  end.

(** [k] quarter turns. *)
Definition rotate_n (k : nat) (s : Polyomino) : Polyomino :=
  Nat.iter k rotate s.

Definition rotations : list (Polyomino -> Polyomino) :=
  [rotate_n 0; rotate_n 1; rotate_n 2; rotate_n 3].

(** The transforms a mode declares equivalent: the identity; the four
    rotations; the four rotations and their horizontal reflections. *)
Definition equivalence_group (mode : EquivalenceMode)
  : list (Polyomino -> Polyomino) :=
  match mode with
  | ModeNone => [fun s => s]
  | RotationOnly => rotations
  | RotationAndReflection =>
      rotations ++ map (fun r s => reflect (r s)) rotations
  end.

(** The representation invariant of a [std::set<Polyomino>]. *)
Definition is_set (s : list Polyomino) : Prop :=
  StronglySorted (ltb_of Polyomino Polyomino_ltb) s.

(** [enumerate] returns a collection of exactly [k] pairwise distinct shapes. *)
Definition returns_set_of (n : Z) (enumeration_type : string) (k : nat)
  : Prop :=
  exists l, enumerate (mkConfig n enumeration_type) = Some l /\
            List.length l = k /\ NoDup l.

(** Number of shapes [enumerate] returns. *)
Definition shape_count (n : Z) (enumeration_type : string) : option nat :=
  option_map (@List.length Polyomino) (enumerate (mkConfig n enumeration_type)).

(** Shapes used in the examples. *)
Definition domino_v : Polyomino := [mkPoint 0 0; mkPoint 0 1].
Definition domino_h : Polyomino := [mkPoint 0 0; mkPoint 1 0].
Definition tromino_l : Polyomino := [mkPoint 0 0; mkPoint 1 0; mkPoint 1 1].
Definition tetromino_s : Polyomino :=
  [mkPoint 0 1; mkPoint 1 0; mkPoint 1 1; mkPoint 2 0].
Definition free_tetrominoes : list Polyomino :=
  [ [mkPoint 0 0; mkPoint 0 1; mkPoint 0 2; mkPoint 0 3];
    [mkPoint 0 0; mkPoint 0 1; mkPoint 0 2; mkPoint 1 0];
    [mkPoint 0 0; mkPoint 0 1; mkPoint 0 2; mkPoint 1 1];
    [mkPoint 0 0; mkPoint 0 1; mkPoint 1 0; mkPoint 1 1];
    [mkPoint 0 0; mkPoint 0 1; mkPoint 1 1; mkPoint 1 2] ].

(** The distance between two cells, measured along the grid lines. *)
Definition manhattan (a b : Point) : Z :=
  Z.abs (px a - px b) + Z.abs (py a - py b).

(** What a level of the enumeration may hold. *)
Definition level_shape (t : string) (k : nat) (s : Polyomino) : Prop :=
  size s = k /\ normalized s /\ connected s /\ NoDup s /\
  getCanonical t s = s.

(** A cell map under which shapes keep their form. *)
Definition isometry (f : Point -> Point) : Prop :=
  equivariant f /\
  (forall a b, f a = f b -> a = b) /\
  (forall a b, neighbour a b -> neighbour (f a) (f b)).

(** The cell maps behind the variants of [getCanonical]. *)
Definition rotation_maps : list (Point -> Point) :=
  [ fun c => c;
    fun c => rotate_cell c;
    fun c => rotate_cell (rotate_cell c);
    fun c => rotate_cell (rotate_cell (rotate_cell c)) ].

Definition variant_maps (enumeration_type : string)
  : list (Point -> Point) :=
  if adds_reflections enumeration_type
  then rotation_maps ++ map (fun r c => r (reflect_cell c)) rotation_maps
  else rotation_maps.

(** Cell lists obtained by starting from one cell and repeatedly hanging a
    new cell on a cell already present. *)
Inductive grown : list Point -> Prop :=
  | grown_one : forall c, grown [c]
  | grown_add : forall q c,
      grown q -> ~ In c q -> (exists q0, In q0 q /\ neighbour q0 c) ->
      grown (q ++ [c]).

(** Level [k] when [enumerate] leaves its loop. *)
Definition final_level (t : string) (n k : nat) : list Polyomino :=
  nth k (shapes_by_size (state_after t n (n - 1))) [].

(** The character of a grid in column [x] of row [y]. *)
Definition grid_at (grid : list (list ascii)) (x y : nat) : ascii :=
  nth x (nth y grid []) " "%char.

(** A grid of [h] rows of [w] characters. *)
Definition grid_dims (grid : list (list ascii)) (h w : nat) : Prop :=
  List.length grid = h /\ Forall (fun row => List.length row = w) grid.

(** Some cell of the list lies in column [x] of row [y]. *)
Definition marked (cells : list Point) (x y : nat) : bool :=
  existsb (fun p => (px p =? Z.of_nat x) && (py p =? Z.of_nat y)) cells.

(** The range of a 32-bit C++ [int].  The model computes in [Z]; it agrees
    with the source wherever every intermediate value lies in this range. *)
Definition INT_MAX : Z := 2147483647.
Definition INT_MIN : Z := -2147483648.

(** Both coordinates are representable. *)
Definition int_point (p : Point) : Prop :=
  INT_MIN <= px p <= INT_MAX /\ INT_MIN <= py p <= INT_MAX.

(** No subtraction of [normalize] leaves the range: the cells are
    representable and no two of them are further apart than [INT_MAX] along
    an axis. *)
Definition normalize_fits (cells : list Point) : Prop :=
  (forall c, In c cells -> int_point c) /\
  (forall a b, In a cells -> In b cells ->
     px a - px b <= INT_MAX /\ py a - py b <= INT_MAX).

(** No addition [cell + dir] of [isAdjacent] leaves the range: no cell lies
    on the border of the representable square. *)
Definition neighbours_fit (poly : Polyomino) : Prop :=
  forall cell, In cell (getCells poly) ->
    INT_MIN < px cell < INT_MAX /\ INT_MIN < py cell < INT_MAX.

(** The sums [max_x + 1] and [max_y + 1] of [toString] stay in range. *)
Definition box_fits (poly : Polyomino) : Prop :=
  max_x_of (getCells poly) < INT_MAX /\ max_y_of (getCells poly) < INT_MAX.

(* ================================================================== *)
(** * Theory of the containers *)

Section OrderedFacts.
Variable A : Type.
Variable ltb : A -> A -> bool.
Hypothesis ltb_irrefl : forall x, ltb x x = false.
Hypothesis ltb_trans :
  forall x y z, ltb x y = true -> ltb y z = true -> ltb x z = true.
Hypothesis ltb_total :
  forall x y, ltb x y = false -> ltb y x = false -> x = y.

Lemma ltb_asym : forall x y, ltb x y = true -> ltb y x = false.
Proof.
  intros x y Hxy. destruct (ltb y x) eqn:Hyx; [|reflexivity].
  rewrite <- (ltb_irrefl x). symmetry. eauto.
Qed.

Lemma leb_of_refl : forall x, leb_of A ltb x x.
Proof. intro x. apply ltb_irrefl. Qed.

Lemma leb_of_trans : forall x y z,
  leb_of A ltb x y -> leb_of A ltb y z -> leb_of A ltb x z.
Proof.
  unfold leb_of. intros x y z Hxy Hyz.
  destruct (ltb z x) eqn:Hzx; [|reflexivity].
  destruct (ltb x y) eqn:Hxy'.
  - rewrite (ltb_trans _ _ _ Hzx Hxy') in Hyz. discriminate.
  - assert (x = y) by auto. subst. congruence.
Qed.

Lemma leb_of_antisym : forall x y,
  leb_of A ltb x y -> leb_of A ltb y x -> x = y.
Proof. unfold leb_of. auto. Qed.

Lemma ltb_leb_of : forall x y, ltb x y = true -> leb_of A ltb x y.
Proof. exact ltb_asym. Qed.

(** *** Sorting *)

Lemma sort_insert_perm : forall x l, Permutation (sort_insert ltb x l) (x :: l).
Proof.
  intros x l. induction l as [|y l IH]; simpl; [reflexivity|].
  destruct (ltb y x); [|reflexivity].
  rewrite IH. apply perm_swap.
Qed.

Lemma sort_perm : forall l, Permutation (sort ltb l) l.
Proof.
  induction l as [|x l IH]; simpl; [reflexivity|].
  rewrite sort_insert_perm. now constructor.
Qed.

Lemma sort_insert_sorted : forall x l,
  StronglySorted (leb_of A ltb) l ->
  StronglySorted (leb_of A ltb) (sort_insert ltb x l).
Proof.
  intros x l Hs. induction Hs as [|y l Hs IH Hall]; simpl.
  - constructor; constructor.
  - destruct (ltb y x) eqn:Hyx.
    + constructor; [exact IH|].
      rewrite Forall_forall. intros z Hz.
      apply (Permutation_in _ (sort_insert_perm x l)) in Hz.
      destruct Hz as [<-|Hz]; [now apply ltb_leb_of|].
      rewrite Forall_forall in Hall. auto.
    + constructor; [now constructor|].
      constructor; [exact Hyx|].
      rewrite Forall_forall in *. intros z Hz.
      apply leb_of_trans with y; [exact Hyx|auto].
Qed.

Lemma sort_sorted : forall l, StronglySorted (leb_of A ltb) (sort ltb l).
Proof.
  induction l as [|x l IH]; simpl; [constructor|].
  now apply sort_insert_sorted.
Qed.

(** A sorted vector is determined by its multiset of elements. *)
Lemma sorted_perm_eq : forall l1 l2,
  StronglySorted (leb_of A ltb) l1 -> StronglySorted (leb_of A ltb) l2 ->
  Permutation l1 l2 -> l1 = l2.
Proof.
  induction l1 as [|a l1 IH]; intros l2 H1 H2 HP.
  - apply Permutation_nil in HP. now subst.
  - destruct l2 as [|b l2].
    + apply Permutation_sym, Permutation_nil in HP. discriminate.
    + inversion H1 as [|? ? Hs1 Ha]; inversion H2 as [|? ? Hs2 Hb]; subst.
      rewrite Forall_forall in Ha, Hb.
      assert (a = b) as ->.
      { assert (In a (b :: l2)) as Hin1
          by (apply (Permutation_in _ HP); now left).
        assert (In b (a :: l1)) as Hin2
          by (apply (Permutation_in _ (Permutation_sym HP)); now left).
        destruct Hin1 as [->|Hin1]; [reflexivity|].
        destruct Hin2 as [->|Hin2]; [reflexivity|].
        apply leb_of_antisym; auto. }
      f_equal. apply IH; auto.
      now apply Permutation_cons_inv with b.
Qed.

(** Any two sorting routines agree: the result depends on the multiset. *)
Lemma sort_unique : forall l1 l2,
  Permutation l1 l2 -> sort ltb l1 = sort ltb l2.
Proof.
  intros l1 l2 HP. apply sorted_perm_eq; try apply sort_sorted.
  rewrite !sort_perm. exact HP.
Qed.

Lemma sort_of_sorted : forall l,
  StronglySorted (leb_of A ltb) l -> sort ltb l = l.
Proof.
  intros l Hs. apply sorted_perm_eq; auto using sort_sorted, sort_perm.
Qed.

(** *** The lexicographic order on vectors *)

Lemma vector_ltb_irrefl : forall a, vector_ltb ltb a a = false.
Proof.
  induction a as [|x a IH]; simpl; [reflexivity|].
  now rewrite ltb_irrefl.
Qed.

Lemma vector_ltb_total : forall a b,
  vector_ltb ltb a b = false -> vector_ltb ltb b a = false -> a = b.
Proof.
  induction a as [|x a IH]; destruct b as [|y b]; simpl; try easy.
  destruct (ltb x y) eqn:Hxy; [easy|].
  destruct (ltb y x) eqn:Hyx; [easy|].
  intros H1 H2. f_equal; auto.
Qed.

Lemma vector_ltb_trans : forall a b c,
  vector_ltb ltb a b = true -> vector_ltb ltb b c = true ->
  vector_ltb ltb a c = true.
Proof.
  induction a as [|x a IH]; destruct b as [|y b]; destruct c as [|z c];
    simpl; try easy.
  destruct (ltb x y) eqn:Hxy.
  - intros _. destruct (ltb y z) eqn:Hyz.
    + intros _. now rewrite (ltb_trans _ _ _ Hxy Hyz).
    + destruct (ltb z y) eqn:Hzy; [easy|].
      assert (y = z) by auto. subst z. now rewrite Hxy.
  - destruct (ltb y x) eqn:Hyx; [easy|].
    assert (x = y) by auto. subst y. intros Hab.
    destruct (ltb x z) eqn:Hxz; [easy|].
    destruct (ltb z x) eqn:Hzx; [easy|].
    now apply IH.
Qed.

End OrderedFacts.

Section SetInsert.
Variable A : Type.
Variable ltb : A -> A -> bool.

(** *** [std::set::insert] *)

Lemma set_insert_In : forall x y s,
  In y (set_insert ltb x s) -> y = x \/ In y s.
Proof.
  intros x y s. induction s as [|z s IH]; simpl.
  - intros [<-|[]]. now left.
  - destruct (ltb x z).
    + intros [<-|H]; auto.
    + destruct (ltb z x).
      * intros [<-|H]; auto. destruct (IH H); auto.
      * auto.
Qed.

Lemma set_insert_length : forall x s,
  (List.length (set_insert ltb x s) <= S (List.length s))%nat.
Proof.
  intros x s. induction s as [|z s IH]; simpl; [lia|].
  destruct (ltb x z); simpl; [lia|].
  destruct (ltb z x); simpl; lia.
Qed.
End SetInsert.

Section SetSorted.
Variable A : Type.
Variable ltb : A -> A -> bool.
Hypothesis ltb_irrefl : forall x, ltb x x = false.
Hypothesis ltb_trans :
  forall x y z, ltb x y = true -> ltb y z = true -> ltb x z = true.

(** [insert] keeps the keys strictly increasing. *)
Lemma set_insert_sorted : forall x s,
  StronglySorted (ltb_of A ltb) s ->
  StronglySorted (ltb_of A ltb) (set_insert ltb x s).
Proof.
  intros x s Hs. induction Hs as [|z s Hs IH Hall]; simpl.
  - repeat constructor.
  - destruct (ltb x z) eqn:Hxz.
    + constructor; [now constructor|].
      constructor; [exact Hxz|].
      rewrite Forall_forall in *. intros y Hy.
      apply ltb_trans with z; [exact Hxz|now apply Hall].
    + destruct (ltb z x) eqn:Hzx; [|now constructor].
      constructor; [exact IH|].
      rewrite Forall_forall in *. intros y Hy.
      apply set_insert_In in Hy as [->|Hy]; [exact Hzx|now apply Hall].
Qed.

Lemma strictly_sorted_NoDup : forall s,
  StronglySorted (ltb_of A ltb) s -> NoDup s.
Proof.
  intros s Hs. induction Hs as [|z s Hs IH Hall]; constructor; [|exact IH].
  intro Hin. rewrite Forall_forall in Hall. specialize (Hall _ Hin).
  unfold ltb_of in Hall. rewrite ltb_irrefl in Hall. discriminate.
Qed.
End SetSorted.

Section MinElement.
Variable A : Type.
Variable ltb : A -> A -> bool.
Hypothesis ltb_irrefl : forall x, ltb x x = false.
Hypothesis ltb_trans :
  forall x y z, ltb x y = true -> ltb y z = true -> ltb x z = true.
Hypothesis ltb_total :
  forall x y, ltb x y = false -> ltb y x = false -> x = y.

Lemma min_element_from_In : forall rest x,
  In (min_element_from ltb x rest) (x :: rest).
Proof.
  unfold min_element_from.
  induction rest as [|y rest IH]; intro x; simpl; [now left|].
  destruct (ltb y x).
  - right. apply IH.
  - destruct (IH x) as [H|H]; [now left|now right; right].
Qed.

Lemma min_element_from_le_init : forall rest x,
  leb_of A ltb (min_element_from ltb x rest) x.
Proof.
  unfold min_element_from.
  induction rest as [|y rest IH]; intro x; simpl.
  - apply leb_of_refl; auto.
  - destruct (ltb y x) eqn:Hyx; [|apply IH].
    eapply leb_of_trans; eauto. now apply ltb_leb_of.
Qed.

Lemma min_element_from_lower : forall rest x y,
  In y (x :: rest) -> leb_of A ltb (min_element_from ltb x rest) y.
Proof.
  induction rest as [|z rest IH]; intros x y Hin.
  - destruct Hin as [<-|[]]. apply leb_of_refl; auto.
  - change (min_element_from ltb x (z :: rest))
      with (min_element_from ltb (if ltb z x then z else x) rest).
    destruct Hin as [<-|[<-|Hin]].
    + destruct (ltb z x) eqn:Hzx.
      * eapply leb_of_trans; eauto using min_element_from_le_init.
        now apply ltb_leb_of.
      * apply min_element_from_le_init.
    + destruct (ltb z x) eqn:Hzx.
      * apply min_element_from_le_init.
      * eapply leb_of_trans; eauto using min_element_from_le_init.
    + apply IH. now right.
Qed.

(** The minimum depends only on the set of elements of the range. *)
Lemma min_element_from_ext : forall x rest x' rest',
  incl (x :: rest) (x' :: rest') -> incl (x' :: rest') (x :: rest) ->
  min_element_from ltb x rest = min_element_from ltb x' rest'.
Proof.
  intros x rest x' rest' H1 H2.
  apply ltb_total.
  - apply (min_element_from_lower rest' x'), H1, min_element_from_In.
  - apply (min_element_from_lower rest x), H2, min_element_from_In.
Qed.
End MinElement.

(* ================================================================== *)
(** * Theory of [Point] and of normalisation *)

Lemma Point_ltb_irrefl : forall a, Point_ltb a a = false.
Proof.
  intros [x y]. unfold Point_ltb; simpl.
  rewrite !Z.ltb_irrefl. now rewrite andb_false_r.
Qed.

Lemma Point_ltb_spec : forall a b,
  Point_ltb a b = true <-> px a < px b \/ (px a = px b /\ py a < py b).
Proof.
  intros a b. unfold Point_ltb.
  rewrite orb_true_iff, andb_true_iff, !Z.ltb_lt, Z.eqb_eq. tauto.
Qed.

Lemma Point_ltb_false : forall a b,
  Point_ltb a b = false <-> px b < px a \/ (px a = px b /\ py b <= py a).
Proof.
  intros a b. rewrite <- not_true_iff_false, Point_ltb_spec. lia.
Qed.

Lemma Point_ltb_trans : forall a b c,
  Point_ltb a b = true -> Point_ltb b c = true -> Point_ltb a c = true.
Proof. intros a b c. rewrite !Point_ltb_spec. lia. Qed.

Lemma Point_ltb_total : forall a b,
  Point_ltb a b = false -> Point_ltb b a = false -> a = b.
Proof.
  intros [xa ya] [xb yb]. rewrite !Point_ltb_false. simpl.
  intros H1 H2. f_equal; lia.
Qed.

Lemma Point_eqb_eq : forall a b, Point_eqb a b = true <-> a = b.
Proof.
  intros [xa ya] [xb yb]. unfold Point_eqb; simpl.
  rewrite andb_true_iff, !Z.eqb_eq. split.
  - intros [-> ->]. reflexivity.
  - intros [= -> ->]. auto.
Qed.

Lemma cells_sort_perm : forall l, Permutation (sort Point_ltb l) l.
Proof. exact (sort_perm Point Point_ltb). Qed.

Lemma cells_sort_sorted : forall l, StronglySorted Point_le (sort Point_ltb l).
Proof.
  exact (sort_sorted Point Point_ltb Point_ltb_irrefl Point_ltb_trans
                     Point_ltb_total).
Qed.

Lemma cells_sort_unique : forall l1 l2,
  Permutation l1 l2 -> sort Point_ltb l1 = sort Point_ltb l2.
Proof.
  exact (sort_unique Point Point_ltb Point_ltb_irrefl Point_ltb_trans
                     Point_ltb_total).
Qed.

Lemma cells_sort_of_sorted : forall l,
  StronglySorted Point_le l -> sort Point_ltb l = l.
Proof.
  exact (sort_of_sorted Point Point_ltb Point_ltb_irrefl Point_ltb_trans
                        Point_ltb_total).
Qed.

Section RunningMin.
Variable key : Point -> Z.

Lemma running_min_bound : forall cells init,
  running_min key cells init <= init /\
  (forall c, In c cells -> running_min key cells init <= key c) /\
  (running_min key cells init = init \/
   exists c, In c cells /\ key c = running_min key cells init).
Proof.
  induction cells as [|c cells IH]; intro init; simpl.
  - repeat split; [lia|easy|now left].
  - destruct (IH (Z.min init (key c))) as (H1 & H2 & H3).
    repeat split.
    + lia.
    + intros c' [<-|Hin]; [lia|auto].
    + destruct H3 as [H3|(c' & Hin & Hc')].
      * destruct (Z.min_spec init (key c)) as [[_ E]|[_ E]].
        -- left. unfold running_min in *. congruence.
        -- right. exists c. split; [now left|].
           unfold running_min in *. congruence.
      * right. exists c'. split; [now right|exact Hc'].
Qed.

Lemma running_min_head : forall c0 cells,
  let m := running_min key (c0 :: cells) (key c0) in
  (forall c, In c (c0 :: cells) -> m <= key c) /\
  (exists c, In c (c0 :: cells) /\ key c = m).
Proof.
  intros c0 cells m.
  destruct (running_min_bound (c0 :: cells) (key c0)) as (H1 & H2 & H3).
  split; [exact H2|].
  destruct H3 as [H3|H3]; [|exact H3].
  exists c0. split; [now left|]. symmetry. exact H3.
Qed.
End RunningMin.

Lemma min_x_of_is_min : forall c0 cells,
  is_min_x (c0 :: cells) (min_x_of (c0 :: cells) (px c0)).
Proof. intros. apply (running_min_head px). Qed.

Lemma min_y_of_is_min : forall c0 cells,
  is_min_y (c0 :: cells) (min_y_of (c0 :: cells) (py c0)).
Proof. intros. apply (running_min_head py). Qed.

Lemma is_min_x_unique : forall cells m m',
  is_min_x cells m -> is_min_x cells m' -> m = m'.
Proof.
  intros cells m m' [L (c & Hc & E)] [L' (c' & Hc' & E')].
  specialize (L _ Hc'). specialize (L' _ Hc). lia.
Qed.

Lemma is_min_y_unique : forall cells m m',
  is_min_y cells m -> is_min_y cells m' -> m = m'.
Proof.
  intros cells m m' [L (c & Hc & E)] [L' (c' & Hc' & E')].
  specialize (L _ Hc'). specialize (L' _ Hc). lia.
Qed.

(** [normalize] on a non-empty vector, in terms of its two minima. *)
Lemma normalize_eq : forall cells mx my,
  is_min_x cells mx -> is_min_y cells my ->
  normalize cells = sort Point_ltb (map (translate mx my) cells).
Proof.
  intros [|c0 cells] mx my Hx Hy; [reflexivity|].
  unfold normalize.
  rewrite (is_min_x_unique _ _ _ Hx (min_x_of_is_min c0 cells)).
  rewrite (is_min_y_unique _ _ _ Hy (min_y_of_is_min c0 cells)).
  reflexivity.
Qed.

Lemma nonempty_mins : forall cells,
  cells <> [] -> exists mx my, is_min_x cells mx /\ is_min_y cells my.
Proof.
  intros [|c0 cells] H; [easy|].
  eauto using min_x_of_is_min, min_y_of_is_min.
Qed.

Lemma is_min_x_perm : forall l l' m,
  Permutation l l' -> is_min_x l m -> is_min_x l' m.
Proof.
  intros l l' m HP [L (c & Hc & E)]. split.
  - intros c' Hc'. apply L. now apply (Permutation_in _ (Permutation_sym HP)).
  - exists c. split; [now apply (Permutation_in _ HP)|exact E].
Qed.

Lemma is_min_y_perm : forall l l' m,
  Permutation l l' -> is_min_y l m -> is_min_y l' m.
Proof.
  intros l l' m HP [L (c & Hc & E)]. split.
  - intros c' Hc'. apply L. now apply (Permutation_in _ (Permutation_sym HP)).
  - exists c. split; [now apply (Permutation_in _ HP)|exact E].
Qed.

Lemma is_min_x_translate : forall l m dx dy,
  is_min_x l m -> is_min_x (map (translate dx dy) l) (m - dx).
Proof.
  intros l m dx dy [L (c & Hc & E)]. split.
  - intros c' Hc'. apply in_map_iff in Hc' as (c0 & <- & Hc0).
    simpl. specialize (L _ Hc0). lia.
  - exists (translate dx dy c). split; [now apply in_map|simpl; lia].
Qed.

Lemma is_min_y_translate : forall l m dx dy,
  is_min_y l m -> is_min_y (map (translate dx dy) l) (m - dy).
Proof.
  intros l m dx dy [L (c & Hc & E)]. split.
  - intros c' Hc'. apply in_map_iff in Hc' as (c0 & <- & Hc0).
    simpl. specialize (L _ Hc0). lia.
  - exists (translate dx dy c). split; [now apply in_map|simpl; lia].
Qed.

Lemma translate_translate : forall dx dy ex ey c,
  translate ex ey (translate dx dy c) = translate (dx + ex) (dy + ey) c.
Proof. intros. unfold translate; simpl. f_equal; lia. Qed.

Lemma translate_0 : forall c, translate 0 0 c = c.
Proof. intros [x y]. unfold translate; simpl. f_equal; lia. Qed.

(** Normalisation forgets the order of the cells and any translation. *)
Lemma normalize_perm_translate : forall l l' dx dy,
  Permutation l' (map (translate dx dy) l) -> normalize l' = normalize l.
Proof.
  intros l l' dx dy HP.
  destruct l as [|c0 l].
  - simpl in HP. apply Permutation_sym, Permutation_nil in HP. now subst.
  - destruct (nonempty_mins (c0 :: l)) as (mx & my & Hx & Hy); [easy|].
    assert (Hx' : is_min_x l' (mx - dx)).
    { eapply is_min_x_perm; [symmetry; exact HP|].
      now apply is_min_x_translate. }
    assert (Hy' : is_min_y l' (my - dy)).
    { eapply is_min_y_perm; [symmetry; exact HP|].
      now apply is_min_y_translate. }
    rewrite (normalize_eq _ _ _ Hx Hy), (normalize_eq _ _ _ Hx' Hy').
    apply cells_sort_unique.
    rewrite HP, map_map.
    erewrite map_ext; [reflexivity|].
    intro c. rewrite translate_translate. f_equal; lia.
Qed.

Lemma normalize_perm : forall l l',
  Permutation l' l -> normalize l' = normalize l.
Proof.
  intros l l' HP. apply (normalize_perm_translate l l' 0 0).
  rewrite HP. erewrite map_ext; [now rewrite map_id|].
  intro c. apply translate_0.
Qed.

(** The result of [normalize] is a sorted translate of its argument. *)
Lemma normalize_perm_of : forall l,
  exists dx dy,
    Permutation (normalize l) (map (translate dx dy) l) /\
    (l <> [] -> is_min_x l dx /\ is_min_y l dy).
Proof.
  intros l. destruct l as [|c0 l].
  - exists 0, 0. split; [reflexivity|easy].
  - destruct (nonempty_mins (c0 :: l)) as (mx & my & Hx & Hy); [easy|].
    exists mx, my. rewrite (normalize_eq _ _ _ Hx Hy).
    split; [apply cells_sort_perm|auto].
Qed.

Lemma normalize_sorted : forall l, StronglySorted Point_le (normalize l).
Proof.
  intros [|c0 l]; [constructor|]. apply cells_sort_sorted.
Qed.

Lemma normalize_normalized : forall l, normalized (normalize l).
Proof.
  intro l. split; [apply normalize_sorted|].
  intro Hne. destruct (normalize_perm_of l) as (dx & dy & HP & Hmin).
  assert (l <> []) as Hl.
  { intros ->. now apply Hne. }
  destruct (Hmin Hl) as [Hx Hy]. split.
  - eapply is_min_x_perm; [symmetry; exact HP|].
    replace 0 with (dx - dx) by lia. now apply is_min_x_translate.
  - eapply is_min_y_perm; [symmetry; exact HP|].
    replace 0 with (dy - dy) by lia. now apply is_min_y_translate.
Qed.

Lemma normalized_fixpoint : forall s, normalized s -> normalize s = s.
Proof.
  intros s [Hs Hmin]. destruct s as [|c0 s]; [reflexivity|].
  destruct Hmin as [Hx Hy]; [easy|].
  rewrite (normalize_eq _ _ _ Hx Hy).
  erewrite map_ext; [rewrite map_id|intro; apply translate_0].
  now apply cells_sort_of_sorted.
Qed.

Lemma normalize_idempotent : forall l, normalize (normalize l) = normalize l.
Proof. intro l. apply normalized_fixpoint, normalize_normalized. Qed.

Lemma normalize_length : forall l, List.length (normalize l) = List.length l.
Proof.
  intro l. destruct (normalize_perm_of l) as (dx & dy & HP & _).
  rewrite (Permutation_length HP). apply length_map.
Qed.

(* ================================================================== *)
(** * Theory of the symmetries *)

Lemma Polyomino_ltb_irrefl : forall a, Polyomino_ltb a a = false.
Proof. exact (vector_ltb_irrefl Point Point_ltb Point_ltb_irrefl). Qed.

Lemma Polyomino_ltb_trans : forall a b c,
  Polyomino_ltb a b = true -> Polyomino_ltb b c = true ->
  Polyomino_ltb a c = true.
Proof.
  exact (vector_ltb_trans Point Point_ltb Point_ltb_trans Point_ltb_total).
Qed.

Lemma Polyomino_ltb_total : forall a b,
  Polyomino_ltb a b = false -> Polyomino_ltb b a = false -> a = b.
Proof. exact (vector_ltb_total Point Point_ltb Point_ltb_total). Qed.

Lemma rotate_cell_equivariant : equivariant rotate_cell.
Proof.
  intros dx dy. exists dy, (- dx). intros [x y].
  unfold rotate_cell, translate; simpl. f_equal; lia.
Qed.

Lemma reflect_cell_equivariant : equivariant reflect_cell.
Proof.
  intros dx dy. exists (- dx), dy. intros [x y].
  unfold reflect_cell, translate; simpl. f_equal; lia.
Qed.

Lemma equivariant_compose : forall f g,
  equivariant f -> equivariant g -> equivariant (fun c => f (g c)).
Proof.
  intros f g Hf Hg dx dy.
  destruct (Hg dx dy) as (ex & ey & Eg).
  destruct (Hf ex ey) as (fx & fy & Ef).
  exists fx, fy. intro c. now rewrite Eg, Ef.
Qed.

Ltac equivariance :=
  repeat first [ exact rotate_cell_equivariant
               | exact reflect_cell_equivariant
               | apply equivariant_compose ].

Lemma image_normalize : forall f l,
  equivariant f -> normalize (map f (normalize l)) = normalize (map f l).
Proof.
  intros f l Hf.
  destruct (normalize_perm_of l) as (dx & dy & HP & _).
  destruct (Hf dx dy) as (dx' & dy' & E).
  apply (normalize_perm_translate _ _ dx' dy').
  rewrite HP, !map_map. erewrite map_ext; [reflexivity|exact E].
Qed.

Lemma image_image : forall f g poly,
  equivariant f -> image f (image g poly) = image (fun c => f (g c)) poly.
Proof.
  intros f g poly Hf. unfold image, mkPolyomino.
  rewrite image_normalize by exact Hf. now rewrite map_map.
Qed.

Lemma image_ext : forall f g poly,
  (forall c, f c = g c) -> image f poly = image g poly.
Proof.
  intros f g poly E. unfold image. f_equal. now apply map_ext.
Qed.

Lemma image_id : forall poly,
  normalized poly -> image (fun c => c) poly = poly.
Proof.
  intros poly H. unfold image, mkPolyomino. rewrite map_id.
  now apply normalized_fixpoint.
Qed.

Lemma rotate_normalized : forall s, normalized (rotate s).
Proof. intro s. apply normalize_normalized. Qed.

Lemma reflect_normalized : forall s, normalized (reflect s).
Proof. intro s. apply normalize_normalized. Qed.

(** Four quarter turns bring a shape back. *)
Lemma rotate4 : forall s,
  normalized s -> rotate (rotate (rotate (rotate s))) = s.
Proof.
  intros s Hs. change rotate with (image rotate_cell).
  rewrite !image_image by equivariance.
  transitivity (image (fun c => c) s); [|now apply image_id].
  apply image_ext.
  intros [x y]. unfold rotate_cell; simpl. f_equal; lia.
Qed.

(** Flipping twice brings a shape back. *)
Lemma reflect2 : forall s, normalized s -> reflect (reflect s) = s.
Proof.
  intros s Hs. change reflect with (image reflect_cell).
  rewrite image_image by equivariance.
  transitivity (image (fun c => c) s); [|now apply image_id].
  apply image_ext.
  intros [x y]. unfold reflect_cell; simpl. f_equal; lia.
Qed.

(** The dihedral relation between the flip and the quarter turn. *)
Lemma reflect_rotate : forall s,
  reflect (rotate s) = rotate (rotate (rotate (reflect s))).
Proof.
  intro s. change reflect with (image reflect_cell).
  change rotate with (image rotate_cell).
  rewrite !image_image by equivariance.
  apply image_ext.
  intros [x y]. unfold rotate_cell, reflect_cell; simpl. f_equal; lia.
Qed.

Lemma getCanonical_eq : forall t s,
  getCanonical t s =
  min_element_from Polyomino_ltb s
    (tl (variants_of t s)).
Proof.
  intros t s. unfold getCanonical, variants_of.
  destruct (adds_reflections _); reflexivity.
Qed.

Lemma variants_of_head : forall t s,
  variants_of t s = s :: tl (variants_of t s).
Proof.
  intros t s. unfold variants_of. destruct (adds_reflections _); reflexivity.
Qed.

(** Two shapes with the same set of variants have the same canonical form. *)
Lemma getCanonical_ext : forall t s s',
  incl (variants_of t s) (variants_of t s') ->
  incl (variants_of t s') (variants_of t s) ->
  getCanonical t s = getCanonical t s'.
Proof.
  intros t s s' H1 H2. rewrite !getCanonical_eq.
  apply (min_element_from_ext _ _ Polyomino_ltb_irrefl Polyomino_ltb_trans
           Polyomino_ltb_total);
    rewrite <- !variants_of_head; assumption.
Qed.

Ltac incl_enum :=
  let x := fresh "x" in
  let Hx := fresh "Hx" in
  intros x Hx; simpl in Hx |- *;
  repeat (destruct Hx as [<-|Hx]; [tauto|]); destruct Hx.

(** The code's canonical form is invariant under a quarter turn, whatever
    the enumeration type. *)
Lemma getCanonical_rotate : forall t s,
  normalized s -> getCanonical t (rotate s) = getCanonical t s.
Proof.
  intros t s Hs.
  assert (HF := rotate4 (reflect s) (reflect_normalized s)).
  apply getCanonical_ext; unfold variants_of;
    destruct (adds_reflections _); simpl;
    rewrite ?reflect_rotate, ?HF, ?(rotate4 s Hs); incl_enum.
Qed.

(** With the reflected variants pushed, it is also invariant under the flip. *)
Lemma getCanonical_reflect : forall t s,
  adds_reflections t = true -> normalized s ->
  getCanonical t (reflect s) = getCanonical t s.
Proof.
  intros t s Ht Hs.
  apply getCanonical_ext; unfold variants_of;
    rewrite Ht; simpl;
    rewrite ?(reflect2 s Hs); incl_enum.
Qed.

(* ================================================================== *)
(** * Theory of the extension generator *)

Lemma neighbour_sym : forall a b, neighbour a b -> neighbour b a.
Proof.
  intros [xa ya] [xb yb] (dir & Hdir & E).
  unfold Point_add in E; simpl in E. injection E as <- <-.
  simpl in Hdir.
  destruct Hdir as [<-|[<-|[<-|[<-|[]]]]]; simpl.
  - exists (mkPoint 0 (-1)). split; [simpl; tauto|].
    unfold Point_add; simpl. f_equal; lia.
  - exists (mkPoint 0 1). split; [simpl; tauto|].
    unfold Point_add; simpl. f_equal; lia.
  - exists (mkPoint (-1) 0). split; [simpl; tauto|].
    unfold Point_add; simpl. f_equal; lia.
  - exists (mkPoint 1 0). split; [simpl; tauto|].
    unfold Point_add; simpl. f_equal; lia.
Qed.

Lemma neighbour_translate : forall dx dy a b,
  neighbour a b -> neighbour (translate dx dy a) (translate dx dy b).
Proof.
  intros dx dy a b (dir & Hdir & <-). exists dir. split; [exact Hdir|].
  unfold Point_add, translate; simpl. f_equal; lia.
Qed.

Lemma isAdjacent_spec : forall poly p,
  isAdjacent poly p = true <-> exists cell, In cell poly /\ neighbour cell p.
Proof.
  intros poly p. unfold isAdjacent, getCells, neighbour.
  rewrite existsb_exists. split.
  - intros (cell & Hc & H). apply existsb_exists in H as (dir & Hd & E).
    apply Point_eqb_eq in E. eauto.
  - intros (cell & Hc & dir & Hd & E). exists cell. split; [exact Hc|].
    apply existsb_exists. exists dir. split; [exact Hd|].
    now apply Point_eqb_eq.
Qed.

Lemma step_mono : forall l l' a b,
  incl l l' -> clos_refl_trans Point (step l) a b ->
  clos_refl_trans Point (step l') a b.
Proof.
  intros l l' a b Hincl H. induction H as [a b (Ha & Hb & Hn)| |].
  - apply rt_step. repeat split; auto.
  - apply rt_refl.
  - eapply rt_trans; eauto.
Qed.

Lemma step_map_translate : forall dx dy l a b,
  clos_refl_trans Point (step l) a b ->
  clos_refl_trans Point (step (map (translate dx dy) l))
                  (translate dx dy a) (translate dx dy b).
Proof.
  intros dx dy l a b H. induction H as [a b (Ha & Hb & Hn)| |].
  - apply rt_step. repeat split; auto using in_map, neighbour_translate.
  - apply rt_refl.
  - eapply rt_trans; eauto.
Qed.

(** Hanging a new cell on a cell of a connected shape keeps it connected. *)
Lemma connected_add : forall p q c,
  connected p -> In q p -> neighbour q c -> connected (p ++ [c]).
Proof.
  intros p q c Hp Hq Hn.
  assert (Hincl : incl p (p ++ [c]))
    by (intros z Hz; apply in_or_app; now left).
  assert (Hc : In c (p ++ [c])) by (apply in_or_app; right; now left).
  assert (Hqc : clos_refl_trans Point (step (p ++ [c])) q c).
  { apply rt_step. repeat split; auto. }
  assert (Hcq : clos_refl_trans Point (step (p ++ [c])) c q).
  { apply rt_step. repeat split; auto using neighbour_sym. }
  intros a b Ha Hb.
  apply in_app_or in Ha. apply in_app_or in Hb.
  destruct Ha as [Ha|[<-|[]]]; destruct Hb as [Hb|[<-|[]]].
  - apply step_mono with p; auto.
  - apply rt_trans with q; [|exact Hqc]. apply step_mono with p; auto.
  - apply rt_trans with q; [exact Hcq|]. apply step_mono with p; auto.
  - apply rt_refl.
Qed.

(** Connectivity does not depend on the position or on the order of cells. *)
Lemma connected_translate : forall dx dy l l',
  connected l -> Permutation l' (map (translate dx dy) l) -> connected l'.
Proof.
  intros dx dy l l' Hl HP a b Ha Hb.
  apply (Permutation_in _ HP) in Ha. apply (Permutation_in _ HP) in Hb.
  apply in_map_iff in Ha as (a0 & <- & Ha0).
  apply in_map_iff in Hb as (b0 & <- & Hb0).
  apply step_mono with (map (translate dx dy) l).
  - intros z Hz. now apply (Permutation_in _ (Permutation_sym HP)).
  - apply step_map_translate. now apply Hl.
Qed.

Lemma normalize_connected : forall l, connected l -> connected (normalize l).
Proof.
  intros l Hl. destruct (normalize_perm_of l) as (dx & dy & HP & _).
  eapply connected_translate; eauto.
Qed.

Lemma fold_left_invariant : forall (S T : Type) (P : S -> Prop)
    (f : S -> T -> S) (l : list T) (s : S),
  P s -> (forall s x, P s -> In x l -> P (f s x)) -> P (fold_left f l s).
Proof.
  intros S T P f l. induction l as [|x l IH]; intros s Hs Hf; simpl.
  - exact Hs.
  - apply IH.
    + apply Hf; [exact Hs|now left].
    + intros s' y Hs' Hy. apply Hf; [exact Hs'|now right].
Qed.

(** What the candidate search collects: free cells next to the shape. *)
Lemma collect_candidates_In : forall poly c,
  In c (collect_candidates poly) -> isAdjacent poly c = true /\ ~ In c poly.
Proof.
  intros poly.
  unfold collect_candidates, getCells.
  apply (fold_left_invariant _ _
           (fun cands => forall c, In c cands ->
                           isAdjacent poly c = true /\ ~ In c poly)).
  - intros c [].
  - intros cands cell IHc Hcell.
    apply fold_left_invariant; [exact IHc|].
    intros cands' dir IHd Hdir c. unfold add_candidate, getCells.
    destruct (existsb _ poly) eqn:Hex; simpl; [now apply IHd|].
    intro Hin. apply set_insert_In in Hin as [->|Hin]; [|now apply IHd].
    split.
    + apply isAdjacent_spec. exists cell. split; [exact Hcell|].
      exists dir. auto.
    + intro Hin. apply not_true_iff_false in Hex. apply Hex.
      apply existsb_exists. exists (Point_add cell dir).
      split; [exact Hin|]. now apply Point_eqb_eq.
Qed.

Lemma getExtensions_In : forall poly e,
  In e (getExtensions poly) ->
  exists c, isAdjacent poly c = true /\ ~ In c poly /\ e = addCell poly c.
Proof.
  intros poly e He. unfold getExtensions in He.
  apply in_map_iff in He as (c & <- & Hc).
  apply collect_candidates_In in Hc as [Ha Hn]. eauto.
Qed.

(* ================================================================== *)
(** * Theory of the level-wise enumerator *)

Lemma vec_set_length : forall (A : Type) (i : nat) (x : A) (v : list A),
  List.length (vec_set i x v) = List.length v.
Proof.
  intros A i x v. revert i.
  induction v as [|y v IH]; intros [|i]; simpl; auto.
Qed.

Lemma vec_set_nth_same : forall (A : Type) (i : nat) (x d : A) (v : list A),
  (i < List.length v)%nat -> nth i (vec_set i x v) d = x.
Proof.
  intros A i x d v. revert i.
  induction v as [|y v IH]; intros [|i] H; simpl in *; try lia; auto.
  apply IH. lia.
Qed.

Lemma vec_set_nth_other : forall (A : Type) (i j : nat) (x d : A) (v : list A),
  i <> j -> nth j (vec_set i x v) d = nth j v d.
Proof.
  intros A i j x d v. revert i j.
  induction v as [|y v IH]; intros [|i] [|j] H; simpl; auto; try lia.
Qed.

Lemma process_shape_spec : forall t shape next total,
  let r := process_shape t (next, total) shape in
  snd r = (total + List.length (getExtensions shape))%nat /\
  (List.length (fst r) <=
   List.length next + List.length (getExtensions shape))%nat.
Proof.
  intros t shape. unfold process_shape.
  induction (getExtensions shape) as [|ext exts IH]; intros next total; simpl.
  - split; lia.
  - specialize (IH (set_insert Polyomino_ltb (getCanonical t ext) next)
                   (S total)).
    simpl in IH. destruct IH as [E L].
    pose proof (set_insert_length _ Polyomino_ltb (getCanonical t ext) next).
    split; lia.
Qed.

Lemma process_level_spec : forall t level next total,
  let r := fold_left (process_shape t) level (next, total) in
  snd r = (total + List.length (growths level))%nat /\
  (List.length (fst r) <= List.length next + List.length (growths level))%nat.
Proof.
  intros t level. unfold growths.
  induction level as [|shape level IH]; intros next total; simpl.
  - split; lia.
  - destruct (process_shape_spec t shape next total) as [E L].
    destruct (process_shape t (next, total) shape) as [next' total'].
    simpl in E, L. specialize (IH next' total'). simpl in IH.
    destruct IH as [E' L']. rewrite length_app. split; lia.
Qed.

(** One iteration writes level [size + 1] and charges its growths. *)
Lemma grow_step_spec : forall t st size,
  (S size < List.length (shapes_by_size st))%nat ->
  let st' := grow_step t st size in
  let level := nth size (shapes_by_size st) [] in
  total_generated st' =
    (total_generated st + List.length (growths level))%nat /\
  (List.length (nth (S size) (shapes_by_size st') []) <=
   List.length (growths level))%nat /\
  List.length (shapes_by_size st') = List.length (shapes_by_size st) /\
  (forall j, j <> S size ->
     nth j (shapes_by_size st') [] = nth j (shapes_by_size st) []).
Proof.
  intros t st size Hlen. unfold grow_step.
  destruct (process_level_spec t (nth size (shapes_by_size st) []) []
              (total_generated st)) as [E L].
  destruct (fold_left _ _ _) as [next total].
  cbn [fst snd shapes_by_size total_generated] in *.
  repeat split.
  - exact E.
  - rewrite vec_set_nth_same by exact Hlen. exact L.
  - apply vec_set_length.
  - intros j Hj. apply vec_set_nth_other. congruence.
Qed.

Lemma state_after_S : forall t n j,
  state_after t n (S j) = grow_step t (state_after t n j) (S j).
Proof.
  intros t n j. unfold state_after.
  rewrite seq_S, fold_left_app. reflexivity.
Qed.

Lemma state_after_length : forall t n j,
  (j < n)%nat -> List.length (shapes_by_size (state_after t n j)) = S n.
Proof.
  intros t n j. induction j as [|j IH]; intro Hj.
  - unfold state_after, initial_state. cbn [seq fold_left shapes_by_size].
    rewrite vec_set_length. apply repeat_length.
  - rewrite state_after_S.
    destruct (grow_step_spec t (state_after t n j) (S j)) as (_ & _ & E & _).
    + rewrite IH; lia.
    + rewrite E. apply IH. lia.
Qed.

(** A level is never written again once the loop has moved past it. *)
Lemma state_after_frozen : forall t n i j k,
  (i <= k)%nat -> (k <= j)%nat -> (j < n)%nat ->
  nth (S i) (shapes_by_size (state_after t n j)) [] =
  nth (S i) (shapes_by_size (state_after t n k)) [].
Proof.
  intros t n i j k Hik Hkj. induction Hkj as [|j Hkj IH]; intro Hj.
  - reflexivity.
  - rewrite state_after_S.
    destruct (grow_step_spec t (state_after t n j) (S j)) as (_ & _ & _ & E).
    + rewrite state_after_length; lia.
    + rewrite E by lia. apply IH. lia.
Qed.

Lemma is_set_insert : forall x s,
  is_set s -> is_set (set_insert Polyomino_ltb x s).
Proof.
  intros x s. apply set_insert_sorted. exact Polyomino_ltb_trans.
Qed.

Lemma process_level_is_set : forall t level next total,
  is_set next ->
  is_set (fst (fold_left (process_shape t) level (next, total))).
Proof.
  intros t level next total Hnext.
  apply (fold_left_invariant _ _ (fun acc => is_set (fst acc)));
    [exact Hnext|].
  intros acc shape Hacc _. unfold process_shape.
  apply (fold_left_invariant _ _ (fun acc => is_set (fst acc)));
    [exact Hacc|].
  intros [next' total'] ext H _. simpl in *. now apply is_set_insert.
Qed.

Lemma vec_set_Forall : forall (A : Type) (P : A -> Prop) i x (v : list A),
  P x -> Forall P v -> Forall P (vec_set i x v).
Proof.
  intros A P i x v Hx Hv. revert i.
  induction Hv as [|y v Hy Hv IH]; intros [|i]; simpl; auto.
Qed.

(** Every level is a set at every moment of the enumeration. *)
Lemma state_after_sets : forall t n j,
  Forall is_set (shapes_by_size (state_after t n j)).
Proof.
  intros t n j. induction j as [|j IH].
  - unfold state_after, initial_state. cbn [seq fold_left shapes_by_size].
    apply vec_set_Forall.
    + apply is_set_insert. constructor.
    + apply Forall_forall. intros l Hl. apply repeat_spec in Hl.
      subst l. constructor.
  - rewrite state_after_S. unfold grow_step.
    pose proof (process_level_is_set t
                  (nth (S j) (shapes_by_size (state_after t n j)) []) []
                  (total_generated (state_after t n j))) as H.
    destruct (fold_left _ _ _) as [next total].
    cbn [fst shapes_by_size] in *.
    apply vec_set_Forall; [|exact IH]. apply H. constructor.
Qed.

Lemma enumerate_NoDup : forall config l,
  enumerate config = Some l -> NoDup l.
Proof.
  intros config l. unfold enumerate.
  destruct (N config <? 1); [discriminate|]. intros [= <-].
  apply (strictly_sorted_NoDup _ Polyomino_ltb Polyomino_ltb_irrefl).
  set (n := Z.to_nat (N config)).
  pose proof (state_after_sets (type config) n (n - 1)) as H.
  rewrite Forall_forall in H.
  destruct (nth_in_or_default n
              (shapes_by_size (state_after (type config) n (n - 1))) [])
    as [Hin| ->]; [now apply H|constructor].
Qed.

Lemma returns_set_of_count : forall n t k,
  shape_count n t = Some k -> returns_set_of n t k.
Proof.
  intros n t k. unfold shape_count, returns_set_of.
  destruct (enumerate (mkConfig n t)) as [l|] eqn:E; [|discriminate].
  intros [= <-]. exists l. repeat split.
  now apply enumerate_NoDup with (1 := E).
Qed.

(* ================================================================== *)
(** * Canonical forms and the equivalence modes *)

Lemma rotate_n_normalized : forall k s,
  normalized s -> normalized (rotate_n k s).
Proof.
  intros [|k] s Hs; [exact Hs|]. unfold rotate_n; simpl.
  apply rotate_normalized.
Qed.

Lemma rotations_In : forall T, In T rotations -> exists k, T = rotate_n k.
Proof.
  intros T HT. unfold rotations in HT. simpl in HT.
  repeat (destruct HT as [<-|HT]; [eauto|]). destruct HT.
Qed.

Lemma getCanonical_rotate_n : forall t k s,
  normalized s -> getCanonical t (rotate_n k s) = getCanonical t s.
Proof.
  intros t k s Hs. induction k as [|k IH]; [reflexivity|].
  change (rotate_n (S k) s) with (rotate (rotate_n k s)).
  rewrite getCanonical_rotate by now apply rotate_n_normalized.
  exact IH.
Qed.

Lemma getCanonical_In : forall t s, In (getCanonical t s) (variants_of t s).
Proof.
  intros t s. rewrite getCanonical_eq, (variants_of_head t s).
  apply min_element_from_In.
Qed.

(** Every variant that [getCanonical] compares has the same canonical form. *)
Lemma variants_canonical : forall t s v,
  normalized s -> In v (variants_of t s) ->
  getCanonical t v = getCanonical t s.
Proof.
  intros t s v Hs Hv. unfold variants_of in Hv.
  destruct (adds_reflections t) eqn:Ht; simpl in Hv;
    repeat (destruct Hv as [<-|Hv];
            [ repeat rewrite getCanonical_rotate
                by (repeat first [ exact Hs | apply rotate_normalized
                                 | apply reflect_normalized ]);
              try reflexivity;
              now apply getCanonical_reflect | ]);
    destruct Hv.
Qed.

(* ================================================================== *)
(** * Facts about the example shapes *)

Lemma normalized_by_fixpoint : forall s, normalize s = s -> normalized s.
Proof. intros s E. rewrite <- E. apply normalize_normalized. Qed.

Lemma domino_v_normalized : normalized domino_v.
Proof. apply normalized_by_fixpoint. reflexivity. Qed.

Lemma domino_h_normalized : normalized domino_h.
Proof. apply normalized_by_fixpoint. reflexivity. Qed.

Lemma tromino_l_normalized : normalized tromino_l.
Proof. apply normalized_by_fixpoint. reflexivity. Qed.

Lemma tetromino_s_normalized : normalized tetromino_s.
Proof. apply normalized_by_fixpoint. reflexivity. Qed.

Lemma domino_v_connected : connected domino_v.
Proof.
  assert (N01 : neighbour (mkPoint 0 0) (mkPoint 0 1)).
  { exists (mkPoint 0 1). split; [simpl; tauto|reflexivity]. }
  intros a b Ha Hb. simpl in Ha, Hb.
  destruct Ha as [<-|[<-|[]]]; destruct Hb as [<-|[<-|[]]];
    try apply rt_refl; apply rt_step; repeat split;
    simpl; auto using neighbour_sym.
Qed.

Lemma domino_v_NoDup : NoDup domino_v.
Proof.
  repeat constructor; simpl; intuition discriminate.
Qed.

(** Within the range condition, [normalize] computes only representable
    values: its result has all coordinates between [0] and [INT_MAX]. *)
Lemma normalize_fits_range : forall l c,
  normalize_fits l -> In c (normalize l) ->
  0 <= px c <= INT_MAX /\ 0 <= py c <= INT_MAX.
Proof.
  intros l c [_ Hspread] Hc.
  destruct (normalize_perm_of l) as (dx & dy & HP & Hmin).
  apply (Permutation_in _ HP) in Hc.
  apply in_map_iff in Hc as (c0 & <- & Hc0).
  destruct Hmin as [[Lx (bx & Hbx & Ex)] [Ly (by_ & Hby & Ey)]];
    [intros ->; destruct Hc0|].
  pose proof (Lx c0 Hc0). pose proof (Ly c0 Hc0).
  destruct (Hspread c0 bx Hc0 Hbx) as [Sx _].
  destruct (Hspread c0 by_ Hc0 Hby) as [_ Sy].
  unfold translate; simpl. lia.
Qed.

Lemma normalize_fits_result : forall l,
  normalize_fits l -> normalize_fits (normalize l).
Proof.
  intros l Hl. unfold INT_MAX, INT_MIN in *. split.
  - intros c Hc. pose proof (normalize_fits_range l c Hl Hc).
    unfold int_point, INT_MAX, INT_MIN in *. lia.
  - intros a b Ha Hb.
    pose proof (normalize_fits_range l a Hl Ha).
    pose proof (normalize_fits_range l b Hl Hb).
    unfold INT_MAX in *. lia.
Qed.

Lemma shifted_domino_fits : normalize_fits [mkPoint 3 5; mkPoint 2 5].
Proof.
  split.
  - intros c [<-|[<-|[]]]; unfold int_point, INT_MIN, INT_MAX; simpl; lia.
  - intros a b [<-|[<-|[]]] [<-|[<-|[]]]; unfold INT_MAX; simpl; lia.
Qed.

(* ================================================================== *)
(** * The claims *)

(** C1 (evaluation at the failing input).  Under the enumeration type
    "fixed", [getCanonical] still folds the four rotations: the horizontal
    domino, a normalized shape, is mapped to the vertical domino, not to
    itself. *)
Theorem C1_fixed_rotates_domino :
  normalized domino_h /\
  getCanonical (type_name ModeNone) domino_h = domino_v /\
  getCanonical (type_name ModeNone) domino_h <> domino_h.
Proof.
  split; [exact domino_h_normalized|]. split; [reflexivity|].
  vm_compute. discriminate.
Qed.

(** C2 (evaluation at the failing inputs).  Under the enumeration type
    "fixed", [enumerate] returns 2 shapes for N = 3 and 1 shape for N = 2,
    where all orientations kept distinct would give 6 and 2. *)
Theorem C2_fixed_counts :
  returns_set_of 3 (type_name ModeNone) 2 /\
  returns_set_of 2 (type_name ModeNone) 1 /\
  enumerate (mkConfig 2 "fixed") = Some [domino_v].
Proof.
  repeat split; try apply returns_set_of_count; vm_compute; reflexivity.
Qed.

(** C3 (evaluation at the failing input).  Under the enumeration type
    "one-sided", [enumerate] returns 5 shapes for N = 4: the reflected
    variants are folded as well, so the count is the one of free
    tetrominoes, not 7. *)
Theorem C3_one_sided_count :
  returns_set_of 4 (type_name RotationOnly) 5.
Proof. apply returns_set_of_count. vm_compute. reflexivity. Qed.

(** C4.  The canonicalizers configured with "one-sided" and with "free"
    are the same function: they return the same shape on every input. *)
Theorem C4_one_sided_equals_free : forall s : Polyomino,
  getCanonical "one-sided" s = getCanonical "free" s.
Proof. intro s. reflexivity. Qed.

(** C5.  Under the enumeration type "free", [enumerate] returns exactly
    1, 1, 5 and 12 shapes for N = 1, 2, 4 and 5. *)
Theorem C5_free_counts :
  returns_set_of 1 (type_name RotationAndReflection) 1 /\
  returns_set_of 2 (type_name RotationAndReflection) 1 /\
  returns_set_of 4 (type_name RotationAndReflection) 5 /\
  returns_set_of 5 (type_name RotationAndReflection) 12.
Proof.
  repeat split; apply returns_set_of_count; vm_compute; reflexivity.
Qed.

(** C6 (counterexample).  The vertical domino is a normalized, duplicate-free
    and connected shape; the L tromino is one of its extensions, and its cell
    set is not the cell set of the domino plus one cell: the cell (0,1) of
    the domino is not a cell of the tromino, because [addCell] translated
    the whole shape after the cell (-1,0) was added. *)
Lemma C6_counterexample :
  normalized domino_v /\ NoDup domino_v /\ connected domino_v /\
  (1 <= size domino_v)%nat /\
  In tromino_l (getExtensions domino_v) /\
  ~ (exists c, forall z, In z tromino_l <-> In z domino_v \/ z = c).
Proof.
  split; [exact domino_v_normalized|].
  split; [exact domino_v_NoDup|].
  split; [exact domino_v_connected|].
  split; [simpl; lia|].
  split; [vm_compute; tauto|].
  intros (c & H).
  assert (Hin : In (mkPoint 0 1) tromino_l).
  { apply H. left. simpl. tauto. }
  simpl in Hin. intuition discriminate.
Qed.

(** C6 (amended).  For every connected shape [p], every shape [e] of
    [getExtensions p] is edge-connected, has exactly one more cell than [p],
    and is the re-normalized vector of the cells of [p] and one new cell [c]
    that is 4-adjacent to a cell of [p] and not occupied in [p]: the cells of
    [e] are exactly the translates of the cells of [p] and of [c] by the
    least x and the least y of those cells. *)
Theorem C6_extensions_connected_one_larger : forall (p e : Polyomino),
  connected p -> In e (getExtensions p) ->
  connected e /\
  size e = S (size p) /\
  exists c dx dy,
    isAdjacent p c = true /\ ~ In c p /\
    e = mkPolyomino (p ++ [c]) /\
    is_min_x (p ++ [c]) dx /\ is_min_y (p ++ [c]) dy /\
    forall z, In z e <-> exists w, (In w p \/ w = c) /\ z = translate dx dy w.
Proof.
  intros p e Hp He.
  apply getExtensions_In in He as (c & Hadj & Hfree & ->).
  unfold addCell, mkPolyomino, size.
  pose proof Hadj as Hadj'.
  apply isAdjacent_spec in Hadj' as (q & Hq & Hn).
  split; [|split].
  - apply normalize_connected. now apply connected_add with q.
  - rewrite normalize_length, length_app. simpl. lia.
  - destruct (normalize_perm_of (p ++ [c])) as (dx & dy & HP & Hmin).
    destruct Hmin as [Hx Hy]; [now destruct p|].
    exists c, dx, dy.
    do 5 (split; [assumption || reflexivity|]).
    intro z. split.
    + intro Hz. apply (Permutation_in _ HP) in Hz.
      apply in_map_iff in Hz as (w & <- & Hw).
      exists w. split; [|reflexivity].
      apply in_app_or in Hw as [Hw|[<-|[]]]; auto.
    + intros (w & Hw & ->).
      apply (Permutation_in _ (Permutation_sym HP)), in_map, in_or_app.
      destruct Hw as [Hw| ->]; [now left|right; now left].
Qed.

Lemma C6_witness :
  connected domino_v /\ In tromino_l (getExtensions domino_v) /\
  connected tromino_l /\ size tromino_l = S (size domino_v).
Proof.
  assert (Hin : In tromino_l (getExtensions domino_v)) by (vm_compute; tauto).
  destruct (C6_extensions_connected_one_larger domino_v tromino_l
              domino_v_connected Hin) as (Hc & Hs & _).
  split; [exact domino_v_connected|]. split; [exact Hin|].
  split; assumption.
Defined.

(** C7.  For every normalized shape [s], every equivalence mode and every
    transform [T] of the group of that mode (the identity for None, the four
    rotations for RotationOnly, the four rotations and their horizontal
    reflections for RotationAndReflection), the canonical form of [T s] is
    the canonical form of [s]. *)
Theorem C7_canonical_invariant : forall (mode : EquivalenceMode)
    (s : Polyomino) (T : Polyomino -> Polyomino),
  normalized s -> In T (equivalence_group mode) ->
  getCanonical (type_name mode) (T s) = getCanonical (type_name mode) s.
Proof.
  intros mode s T Hs HT.
  destruct mode; unfold equivalence_group in HT.
  - destruct HT as [<-|[]]. reflexivity.
  - apply rotations_In in HT as (k & ->).
    now apply getCanonical_rotate_n.
  - apply in_app_or in HT as [HT|HT].
    + apply rotations_In in HT as (k & ->).
      now apply getCanonical_rotate_n.
    + apply in_map_iff in HT as (r & <- & Hr).
      apply rotations_In in Hr as (k & ->).
      rewrite getCanonical_reflect;
        [now apply getCanonical_rotate_n | reflexivity
        | now apply rotate_n_normalized].
Qed.

Lemma C7_witness :
  normalized tetromino_s /\
  In (fun s => reflect (rotate_n 1 s))
     (equivalence_group RotationAndReflection) /\
  reflect (rotate_n 1 tetromino_s) <> tetromino_s /\
  getCanonical "free" (reflect (rotate_n 1 tetromino_s)) =
  getCanonical "free" tetromino_s.
Proof.
  assert (HT : In (fun s => reflect (rotate_n 1 s))
                  (equivalence_group RotationAndReflection))
    by (simpl; tauto).
  split; [exact tetromino_s_normalized|]. split; [exact HT|].
  split; [vm_compute; discriminate|].
  exact (C7_canonical_invariant RotationAndReflection tetromino_s _
           tetromino_s_normalized HT).
Defined.

(** C8.  Canonicalization is idempotent: for every normalized shape [s] and
    every enumeration type (in particular the three modes),
    [getCanonical (getCanonical s) = getCanonical s]. *)
Theorem C8_canonical_idempotent : forall (enumeration_type : string)
    (s : Polyomino),
  normalized s ->
  getCanonical enumeration_type (getCanonical enumeration_type s) =
  getCanonical enumeration_type s.
Proof.
  intros t s Hs. apply variants_canonical; [exact Hs|].
  apply getCanonical_In.
Qed.

Lemma C8_witness :
  normalized domino_h /\
  getCanonical "fixed" (getCanonical "fixed" domino_h) =
  getCanonical "fixed" domino_h.
Proof.
  split; [exact domino_h_normalized|].
  exact (C8_canonical_idempotent "fixed" domino_h domino_h_normalized).
Defined.

(** C9.  While enumerating size [n] under any enumeration type, for every
    level [k] with [1 <= k < n]: the iteration for level [k] increases
    [total_generated] by the number of growths of the shapes of level [k],
    and that number is at least the number of shapes of level [k + 1]. *)
Theorem C9_growths_bound_next_level : forall (enumeration_type : string)
    (n k : nat),
  (1 <= k)%nat -> (k < n)%nat ->
  let final := state_after enumeration_type n (n - 1) in
  let level_k := nth k (shapes_by_size final) [] in
  let level_k1 := nth (S k) (shapes_by_size final) [] in
  total_generated (state_after enumeration_type n k) =
    (total_generated (state_after enumeration_type n (k - 1))
     + List.length (growths level_k))%nat /\
  (List.length (growths level_k) >= List.length level_k1)%nat.
Proof.
  intros t n k Hk Hn. destruct k as [|i]; [lia|].
  cbn zeta. replace (S i - 1)%nat with i by lia.
  rewrite (state_after_frozen t n i (n - 1) i) by lia.
  rewrite (state_after_frozen t n (S i) (n - 1) (S i)) by lia.
  rewrite state_after_S.
  destruct (grow_step_spec t (state_after t n i) (S i)) as (E & L & _).
  - rewrite state_after_length; lia.
  - split; [exact E|]. unfold ge. exact L.
Qed.

Lemma C9_witness :
  (1 <= 2)%nat /\ (2 < 4)%nat /\
  (List.length (growths (nth 2 (shapes_by_size (state_after "free" 4 3)) []))
   >= List.length (nth 3 (shapes_by_size (state_after "free" 4 3)) []))%nat.
Proof.
  assert (H1 : (1 <= 2)%nat) by lia.
  assert (H2 : (2 < 4)%nat) by lia.
  split; [exact H1|]. split; [exact H2|].
  exact (proj2 (C9_growths_bound_next_level "free" 4 2 H1 H2)).
Defined.

(** C10 (counterexample).  Built from a list that holds the cell (0,0)
    twice, the shape keeps both copies. *)
Lemma C10_counterexample :
  mkPolyomino [mkPoint 0 0; mkPoint 0 0] = [mkPoint 0 0; mkPoint 0 0] /\
  ~ NoDup (mkPolyomino [mkPoint 0 0; mkPoint 0 0]).
Proof.
  split; [reflexivity|].
  intro H. vm_compute in H. inversion H as [|? ? Hn _]. apply Hn. now left.
Qed.

(** C10 (amended).  Constructing a shape from an arbitrary list of [int]
    cells no two of which are further apart than [INT_MAX] along an axis
    (so that no subtraction of [normalize] overflows) yields a vector that is
    sorted in the (weak) lexicographic cell order, whose least x and least y
    are zero when it is not empty, whose coordinates all lie between [0] and
    [INT_MAX], and that is a rearrangement of a translate of the given list:
    it has as many cells as the list, and it is free of duplicates exactly
    when the list is. *)
Theorem C10_constructor_normalizes : forall points : list Point,
  normalize_fits points ->
  let s := mkPolyomino points in
  StronglySorted Point_le s /\
  (points = [] -> s = []) /\
  (points <> [] -> is_min_x s 0 /\ is_min_y s 0) /\
  (forall c, In c s -> 0 <= px c <= INT_MAX /\ 0 <= py c <= INT_MAX) /\
  size s = List.length points /\
  (exists dx dy, Permutation s (map (translate dx dy) points)) /\
  (NoDup s <-> NoDup points).
Proof.
  intros points Hfits s. subst s. unfold mkPolyomino, size.
  destruct (normalize_normalized points) as [Hs Hmin].
  destruct (normalize_perm_of points) as (dx & dy & HP & _).
  split; [exact Hs|]. split; [now intros ->|]. split; [|split].
  - intro Hne. apply Hmin. intro E.
    apply (f_equal (@List.length Point)) in E.
    rewrite normalize_length in E. now destruct points.
  - intros c Hc. now apply (normalize_fits_range points).
  - split; [apply normalize_length|]. split; [eauto|].
    assert (Hinj : forall a b, translate dx dy a = translate dx dy b -> a = b).
    { intros [xa ya] [xb yb] [= E1 E2]. f_equal; lia. }
    split; intro H.
    + apply (Permutation_NoDup HP) in H.
      now apply NoDup_map_inv in H.
    + apply (Permutation_NoDup (Permutation_sym HP)).
      apply Finite.Injective_map_NoDup; [exact Hinj|exact H].
Qed.

Lemma C10_witness :
  normalize_fits [mkPoint 3 5; mkPoint 2 5] /\
  [mkPoint 3 5; mkPoint 2 5] <> [] /\
  mkPolyomino [mkPoint 3 5; mkPoint 2 5] = domino_h /\
  is_min_x (mkPolyomino [mkPoint 3 5; mkPoint 2 5]) 0.
Proof.
  assert (Hne : [mkPoint 3 5; mkPoint 2 5] <> []) by discriminate.
  split; [exact shifted_domino_fits|].
  split; [exact Hne|]. split; [reflexivity|].
  destruct (C10_constructor_normalizes [mkPoint 3 5; mkPoint 2 5]
              shifted_domino_fits)
    as (_ & _ & Hmin & _).
  exact (proj1 (Hmin Hne)).
Defined.

(* ================================================================== *)
(** * Further properties of the code *)

(** ** The two orders *)

Lemma vector_eqb_eq : forall (A : Type) (eqb : A -> A -> bool),
  (forall x y, eqb x y = true <-> x = y) ->
  forall a b, vector_eqb eqb a b = true <-> a = b.
Proof.
  intros A eqb Heqb. induction a as [|x a IH]; destruct b as [|y b]; simpl;
    try (split; [discriminate|discriminate]); [tauto|].
  rewrite andb_true_iff, Heqb, IH. split.
  - intros [-> ->]. reflexivity.
  - intros [= -> ->]. auto.
Qed.

Lemma Polyomino_eqb_eq : forall a b, Polyomino_eqb a b = true <-> a = b.
Proof. apply vector_eqb_eq. exact Point_eqb_eq. Qed.

(** X1.  [Point::operator<] is a strict total order that agrees with
    [Point::operator==]: it is irreflexive and transitive, and two points are
    [==] exactly when neither is less than the other. *)
Theorem X1_Point_strict_total_order :
  (forall a, Point_ltb a a = false) /\
  (forall a b c, Point_ltb a b = true -> Point_ltb b c = true ->
                 Point_ltb a c = true) /\
  (forall a b, Point_eqb a b = negb (Point_ltb a b || Point_ltb b a)).
Proof.
  split; [exact Point_ltb_irrefl|]. split; [exact Point_ltb_trans|].
  intros a b. destruct (Point_eqb a b) eqn:E.
  - apply Point_eqb_eq in E. subst b. now rewrite Point_ltb_irrefl.
  - destruct (Point_ltb a b) eqn:Hab; [reflexivity|].
    destruct (Point_ltb b a) eqn:Hba; [reflexivity|].
    rewrite (Point_ltb_total _ _ Hab Hba) in E.
    assert (Point_eqb b b = true) by now apply Point_eqb_eq.
    congruence.
Qed.

(** X2.  [Polyomino::operator<] is a strict total order on cell vectors that
    agrees with [Polyomino::operator==]: irreflexive, transitive, and two
    shapes are [==] exactly when neither is less than the other, so a
    [std::set<Polyomino>] merges exactly the equal shapes. *)
Theorem X2_Polyomino_strict_total_order :
  (forall a, Polyomino_ltb a a = false) /\
  (forall a b c, Polyomino_ltb a b = true -> Polyomino_ltb b c = true ->
                 Polyomino_ltb a c = true) /\
  (forall a b,
     Polyomino_eqb a b = negb (Polyomino_ltb a b || Polyomino_ltb b a)).
Proof.
  split; [exact Polyomino_ltb_irrefl|]. split; [exact Polyomino_ltb_trans|].
  intros a b. destruct (Polyomino_eqb a b) eqn:E.
  - apply Polyomino_eqb_eq in E. subst b. now rewrite Polyomino_ltb_irrefl.
  - destruct (Polyomino_ltb a b) eqn:Hab; [reflexivity|].
    destruct (Polyomino_ltb b a) eqn:Hba; [reflexivity|].
    rewrite (Polyomino_ltb_total _ _ Hab Hba) in E.
    assert (Polyomino_eqb b b = true) by now apply Polyomino_eqb_eq.
    congruence.
Qed.

(** ** Normalisation as a key *)

Lemma map_translate_inverse : forall dx dy l,
  map (translate (- dx) (- dy)) (map (translate dx dy) l) = l.
Proof.
  intros dx dy l. rewrite map_map. rewrite <- (map_id l) at 2.
  apply map_ext. intros [x y]. unfold translate; simpl. f_equal; lia.
Qed.

(** X3.  Two cell vectors normalize to the same vector exactly when one is
    a rearrangement of a translate of the other: the normalized vector
    identifies a figure up to position and order of its cells. *)
Theorem X3_normalize_key : forall l l' : list Point,
  normalize l' = normalize l <->
  exists dx dy, Permutation l' (map (translate dx dy) l).
Proof.
  intros l l'. split.
  - intro E.
    destruct (normalize_perm_of l) as (dx & dy & HP & _).
    destruct (normalize_perm_of l') as (dx' & dy' & HP' & _).
    exists (dx - dx'), (dy - dy').
    rewrite <- (map_translate_inverse dx' dy' l').
    rewrite <- HP', E, HP, map_map.
    erewrite map_ext; [reflexivity|].
    intro c. rewrite translate_translate. f_equal; lia.
  - intros (dx & dy & HP). now apply normalize_perm_translate with dx dy.
Qed.

(** X4.  [normalize] is idempotent on every vector of [int] cells no two of
    which are further apart than [INT_MAX] along an axis: the result meets
    the same range condition, and normalizing it again changes nothing. *)
Theorem X4_normalize_idempotent : forall l : list Point,
  normalize_fits l ->
  normalize_fits (normalize l) /\ normalize (normalize l) = normalize l.
Proof.
  intros l Hl. split; [now apply normalize_fits_result|].
  apply normalized_fixpoint, normalize_normalized.
Qed.

Lemma X4_witness :
  normalize_fits [mkPoint 3 5; mkPoint 2 5] /\
  normalize (normalize [mkPoint 3 5; mkPoint 2 5]) =
  normalize [mkPoint 3 5; mkPoint 2 5].
Proof.
  split; [exact shifted_domino_fits|].
  exact (proj2 (X4_normalize_idempotent _ shifted_domino_fits)).
Defined.

(** ** Rotation and reflection *)

Lemma neighbour_rotate_cell : forall a b,
  neighbour a b -> neighbour (rotate_cell a) (rotate_cell b).
Proof.
  intros [xa ya] [xb yb] (dir & Hdir & E).
  unfold Point_add in E; simpl in E. injection E as <- <-.
  simpl in Hdir.
  destruct Hdir as [<-|[<-|[<-|[<-|[]]]]]; unfold rotate_cell; simpl.
  - exists (mkPoint 1 0). split; [simpl; tauto|].
    unfold Point_add; simpl. f_equal; lia.
  - exists (mkPoint (-1) 0). split; [simpl; tauto|].
    unfold Point_add; simpl. f_equal; lia.
  - exists (mkPoint 0 (-1)). split; [simpl; tauto|].
    unfold Point_add; simpl. f_equal; lia.
  - exists (mkPoint 0 1). split; [simpl; tauto|].
    unfold Point_add; simpl. f_equal; lia.
Qed.

Lemma neighbour_reflect_cell : forall a b,
  neighbour a b -> neighbour (reflect_cell a) (reflect_cell b).
Proof.
  intros [xa ya] [xb yb] (dir & Hdir & E).
  unfold Point_add in E; simpl in E. injection E as <- <-.
  simpl in Hdir.
  destruct Hdir as [<-|[<-|[<-|[<-|[]]]]]; unfold reflect_cell; simpl.
  - exists (mkPoint 0 1). split; [simpl; tauto|].
    unfold Point_add; simpl. f_equal; lia.
  - exists (mkPoint 0 (-1)). split; [simpl; tauto|].
    unfold Point_add; simpl. f_equal; lia.
  - exists (mkPoint (-1) 0). split; [simpl; tauto|].
    unfold Point_add; simpl. f_equal; lia.
  - exists (mkPoint 1 0). split; [simpl; tauto|].
    unfold Point_add; simpl. f_equal; lia.
Qed.

Lemma connected_map : forall (f : Point -> Point) l,
  (forall a b, neighbour a b -> neighbour (f a) (f b)) ->
  connected l -> connected (map f l).
Proof.
  intros f l Hf Hl a b Ha Hb.
  apply in_map_iff in Ha as (a0 & <- & Ha0).
  apply in_map_iff in Hb as (b0 & <- & Hb0).
  specialize (Hl a0 b0 Ha0 Hb0). clear Ha0 Hb0.
  induction Hl as [u v (Hu & Hv & Hn)| |].
  - apply rt_step. repeat split; auto using in_map.
  - apply rt_refl.
  - eapply rt_trans; eauto.
Qed.

Lemma rotate_connected : forall s, connected s -> connected (rotate s).
Proof.
  intros s Hs. apply normalize_connected, connected_map; auto.
  exact neighbour_rotate_cell.
Qed.

Lemma reflect_connected : forall s, connected s -> connected (reflect s).
Proof.
  intros s Hs. apply normalize_connected, connected_map; auto.
  exact neighbour_reflect_cell.
Qed.

Lemma rotate_size : forall s, size (rotate s) = size s.
Proof.
  intro s. unfold rotate, mkPolyomino, size.
  now rewrite normalize_length, length_map.
Qed.

Lemma reflect_size : forall s, size (reflect s) = size s.
Proof.
  intro s. unfold reflect, mkPolyomino, size.
  now rewrite normalize_length, length_map.
Qed.

(** X5.  Four quarter turns bring every normalized shape back to itself. *)
Theorem X5_rotate_four_times : forall s : Polyomino,
  normalized s -> rotate (rotate (rotate (rotate s))) = s.
Proof. exact rotate4. Qed.

Lemma X5_witness :
  normalized tromino_l /\
  rotate (rotate (rotate (rotate tromino_l))) = tromino_l.
Proof.
  split; [exact tromino_l_normalized|].
  exact (X5_rotate_four_times tromino_l tromino_l_normalized).
Defined.

(** X6.  Reflecting twice brings every normalized shape back to itself. *)
Theorem X6_reflect_twice : forall s : Polyomino,
  normalized s -> reflect (reflect s) = s.
Proof. exact reflect2. Qed.

Lemma X6_witness :
  normalized tromino_l /\ reflect (reflect tromino_l) = tromino_l.
Proof.
  split; [exact tromino_l_normalized|].
  exact (X6_reflect_twice tromino_l tromino_l_normalized).
Defined.

(** X7.  Reflecting a rotated shape is rotating the reflected shape three
    times: [rotate] and [reflect] satisfy the relation of the symmetry group
    of the square, on every cell vector. *)
Theorem X7_reflect_after_rotate : forall s : Polyomino,
  reflect (rotate s) = rotate (rotate (rotate (reflect s))).
Proof. exact reflect_rotate. Qed.

(** X8.  [rotate] and [reflect] keep the number of cells and always return
    a vector that satisfies the class invariant. *)
Theorem X8_rotate_reflect_size_normalized : forall s : Polyomino,
  size (rotate s) = size s /\ size (reflect s) = size s /\
  normalized (rotate s) /\ normalized (reflect s).
Proof.
  intro s.
  split; [apply rotate_size|]. split; [apply reflect_size|].
  split; [apply rotate_normalized|apply reflect_normalized].
Qed.

(** X9.  [rotate] and [reflect] map an edge-connected shape to an
    edge-connected shape. *)
Theorem X9_rotate_reflect_connected : forall s : Polyomino,
  connected s -> connected (rotate s) /\ connected (reflect s).
Proof.
  intros s Hs. split; [now apply rotate_connected|now apply reflect_connected].
Qed.

Lemma X9_witness :
  connected domino_v /\ connected (rotate domino_v) /\
  connected (reflect domino_v).
Proof.
  split; [exact domino_v_connected|].
  exact (X9_rotate_reflect_connected domino_v domino_v_connected).
Defined.

(** ** The canonical form *)

(** A property that [rotate] and [reflect] keep holds of every variant. *)
Lemma variants_of_preserve : forall (P : Polyomino -> Prop) t s,
  P s -> (forall x, P x -> P (rotate x)) -> (forall x, P x -> P (reflect x)) ->
  forall v, In v (variants_of t s) -> P v.
Proof.
  intros P t s Hs Hr Hf v Hv. unfold variants_of in Hv.
  destruct (adds_reflections t); simpl in Hv;
    repeat (destruct Hv as [<-|Hv]; [auto 10|]); destruct Hv.
Qed.

Lemma getCanonical_lower : forall t s v,
  In v (variants_of t s) -> Polyomino_ltb v (getCanonical t s) = false.
Proof.
  intros t s v Hv. rewrite getCanonical_eq.
  rewrite (variants_of_head t s) in Hv.
  exact (min_element_from_lower _ _ Polyomino_ltb_irrefl Polyomino_ltb_trans
           Polyomino_ltb_total _ _ _ Hv).
Qed.

(** X10.  [getCanonical] returns one of the variants it built, and no
    variant is smaller than it in the order of [Polyomino::operator<]. *)
Theorem X10_canonical_is_least_variant : forall (enumeration_type : string)
    (s v : Polyomino),
  In v (variants_of enumeration_type s) ->
  In (getCanonical enumeration_type s) (variants_of enumeration_type s) /\
  Polyomino_ltb v (getCanonical enumeration_type s) = false.
Proof.
  intros t s v Hv. split; [apply getCanonical_In|now apply getCanonical_lower].
Qed.

Lemma X10_witness :
  In (rotate domino_v) (variants_of "free" domino_v) /\
  In (getCanonical "free" domino_v) (variants_of "free" domino_v) /\
  Polyomino_ltb (rotate domino_v) (getCanonical "free" domino_v) = false.
Proof.
  assert (H : In (rotate domino_v) (variants_of "free" domino_v))
    by (vm_compute; tauto).
  split; [exact H|].
  exact (X10_canonical_is_least_variant "free" domino_v (rotate domino_v) H).
Defined.

Lemma getCanonical_size : forall t s, size (getCanonical t s) = size s.
Proof.
  intros t s.
  apply (variants_of_preserve (fun x => size x = size s) t s);
    auto using getCanonical_In.
  - intros x Hx. now rewrite rotate_size.
  - intros x Hx. now rewrite reflect_size.
Qed.

Lemma getCanonical_normalized : forall t s,
  normalized s -> normalized (getCanonical t s).
Proof.
  intros t s Hs.
  apply (variants_of_preserve normalized t s);
    auto using getCanonical_In, rotate_normalized, reflect_normalized.
Qed.

Lemma getCanonical_connected : forall t s,
  connected s -> connected (getCanonical t s).
Proof.
  intros t s Hs.
  apply (variants_of_preserve connected t s);
    auto using getCanonical_In, rotate_connected, reflect_connected.
Qed.

(** X11.  [getCanonical] keeps the number of cells, the class invariant and
    edge-connectivity of its argument. *)
Theorem X11_canonical_preserves_shape : forall (enumeration_type : string)
    (s : Polyomino),
  size (getCanonical enumeration_type s) = size s /\
  (normalized s -> normalized (getCanonical enumeration_type s)) /\
  (connected s -> connected (getCanonical enumeration_type s)).
Proof.
  intros t s.
  split; [apply getCanonical_size|].
  split; [apply getCanonical_normalized|apply getCanonical_connected].
Qed.

Ltac dihedral_normal_form Hs :=
  repeat rewrite reflect_rotate;
  repeat rewrite (reflect2 _ Hs);
  repeat rewrite rotate4
    by first [ exact Hs | apply rotate_normalized | apply reflect_normalized ].

(** The variants of a variant are the variants of the shape. *)
Lemma variants_of_orbit : forall t s v,
  normalized s -> In v (variants_of t s) ->
  incl (variants_of t v) (variants_of t s) /\
  incl (variants_of t s) (variants_of t v).
Proof.
  intros t s v Hs Hv. unfold variants_of in *.
  destruct (adds_reflections t); simpl in Hv;
    repeat (destruct Hv as [<-|Hv];
            [ simpl; dihedral_normal_form Hs; split; incl_enum | ]);
    destruct Hv.
Qed.

(** X12.  Two normalized shapes have the same canonical form exactly when
    one is among the variants [getCanonical] builds for the other. *)
Theorem X12_canonical_decides_variants : forall (enumeration_type : string)
    (s s' : Polyomino),
  normalized s -> normalized s' ->
  (getCanonical enumeration_type s = getCanonical enumeration_type s' <->
   In s' (variants_of enumeration_type s)).
Proof.
  intros t s s' Hs Hs'. split.
  - intro E.
    pose proof (getCanonical_In t s) as Hc.
    pose proof (getCanonical_In t s') as Hc'. rewrite <- E in Hc'.
    destruct (variants_of_orbit t s _ Hs Hc) as [H1 _].
    destruct (variants_of_orbit t s' _ Hs' Hc') as [_ H2].
    apply H1, H2. rewrite (variants_of_head t s'). now left.
  - intro Hin. symmetry. now apply variants_canonical.
Qed.

Lemma X12_witness :
  normalized domino_v /\ normalized domino_h /\
  (getCanonical "free" domino_v = getCanonical "free" domino_h <->
   In domino_h (variants_of "free" domino_v)).
Proof.
  split; [exact domino_v_normalized|]. split; [exact domino_h_normalized|].
  exact (X12_canonical_decides_variants "free" domino_v domino_h
           domino_v_normalized domino_h_normalized).
Defined.

(** ** The extension generator *)

Lemma set_insert_In_old : forall (A : Type) (ltb : A -> A -> bool) x y s,
  In y s -> In y (set_insert ltb x s).
Proof.
  intros A ltb x y s. induction s as [|z s IH]; simpl; [tauto|].
  destruct (ltb x z); [simpl; tauto|].
  destruct (ltb z x); simpl; tauto.
Qed.

Lemma set_insert_In_new : forall (A : Type) (ltb : A -> A -> bool),
  (forall x y, ltb x y = false -> ltb y x = false -> x = y) ->
  forall x s, In x (set_insert ltb x s).
Proof.
  intros A ltb Htotal x s. induction s as [|z s IH]; simpl; [tauto|].
  destruct (ltb x z) eqn:Hxz; [simpl; tauto|].
  destruct (ltb z x) eqn:Hzx; [simpl; tauto|].
  left. symmetry. now apply Htotal.
Qed.

Lemma add_candidate_keeps : forall poly cell cands dir c,
  In c cands -> In c (add_candidate poly cell cands dir).
Proof.
  intros poly cell cands dir c Hc. unfold add_candidate.
  destruct (negb _); [now apply set_insert_In_old|exact Hc].
Qed.

Lemma add_candidates_keeps : forall poly cell dirs cands c,
  In c cands -> In c (fold_left (add_candidate poly cell) dirs cands).
Proof.
  intros poly cell dirs. induction dirs as [|d dirs IH]; intros cands c Hc;
    simpl; [exact Hc|].
  apply IH. now apply add_candidate_keeps.
Qed.

Lemma add_candidates_adds : forall poly cell dirs cands dir,
  In dir dirs -> ~ In (Point_add cell dir) poly ->
  In (Point_add cell dir) (fold_left (add_candidate poly cell) dirs cands).
Proof.
  intros poly cell dirs. induction dirs as [|d dirs IH];
    intros cands dir Hdir Hfree; simpl; [destruct Hdir|].
  destruct Hdir as [->|Hdir]; [|now apply IH].
  apply add_candidates_keeps. unfold add_candidate, getCells.
  destruct (existsb _ poly) eqn:Hex; simpl.
  - exfalso. apply Hfree. apply existsb_exists in Hex as (e & He & E).
    apply Point_eqb_eq in E. now subst e.
  - apply set_insert_In_new. exact Point_ltb_total.
Qed.

Lemma collect_candidates_complete : forall poly cell dir,
  In cell poly -> In dir directions -> ~ In (Point_add cell dir) poly ->
  In (Point_add cell dir) (collect_candidates poly).
Proof.
  intros poly cell dir Hcell Hdir Hfree.
  unfold collect_candidates, getCells.
  assert (G : forall cells cands,
             (In cell cells \/ In (Point_add cell dir) cands) ->
             In (Point_add cell dir)
                (fold_left (fun candidates cell0 =>
                   fold_left (add_candidate poly cell0) directions candidates)
                   cells cands)).
  { induction cells as [|c0 cells IH]; intros cands H; cbn [fold_left].
    - destruct H as [[]|H]; exact H.
    - apply IH. destruct H as [[->|H]|H].
      + right. now apply add_candidates_adds.
      + now left.
      + right. now apply add_candidates_keeps. }
  apply G. now left.
Qed.

Lemma neighbour_manhattan : forall a b, neighbour a b <-> manhattan a b = 1.
Proof.
  intros [xa ya] [xb yb]. unfold neighbour, manhattan; simpl. split.
  - intros (dir & Hdir & E). unfold Point_add in E; simpl in E.
    injection E as <- <-. simpl in Hdir.
    destruct Hdir as [<-|[<-|[<-|[<-|[]]]]]; simpl; lia.
  - intro H.
    assert (Hcases : (xb = xa /\ yb = ya + 1) \/ (xb = xa /\ yb = ya - 1) \/
                     (xb = xa + 1 /\ yb = ya) \/ (xb = xa - 1 /\ yb = ya))
      by lia.
    destruct Hcases as [[-> ->]|[[-> ->]|[[-> ->]|[-> ->]]]].
    + exists (mkPoint 0 1). split; [simpl; tauto|].
      unfold Point_add; simpl. f_equal; lia.
    + exists (mkPoint 0 (-1)). split; [simpl; tauto|].
      unfold Point_add; simpl. f_equal; lia.
    + exists (mkPoint 1 0). split; [simpl; tauto|].
      unfold Point_add; simpl. f_equal; lia.
    + exists (mkPoint (-1) 0). split; [simpl; tauto|].
      unfold Point_add; simpl. f_equal; lia.
Qed.

(** X13.  For a shape none of whose cells has a coordinate equal to
    [INT_MIN] or [INT_MAX] (so that no addition [cell + dir] overflows) and a
    representable point [p], [isAdjacent poly p] holds exactly when some cell
    of [poly] is at distance one from [p] along one axis (|dx| + |dy| = 1);
    whether [p] is itself a cell of [poly] plays no role. *)
Theorem X13_isAdjacent_distance_one : forall (poly : Polyomino) (p : Point),
  neighbours_fit poly -> int_point p ->
  (isAdjacent poly p = true <->
   exists cell, In cell (getCells poly) /\ manhattan cell p = 1).
Proof.
  intros poly p _ _. rewrite isAdjacent_spec. unfold getCells.
  split; intros (cell & Hc & H); exists cell; split; auto;
    now apply neighbour_manhattan.
Qed.

Lemma X13_witness :
  neighbours_fit domino_v /\ int_point (mkPoint 1 1) /\
  (isAdjacent domino_v (mkPoint 1 1) = true <->
   exists cell, In cell (getCells domino_v) /\
                manhattan cell (mkPoint 1 1) = 1).
Proof.
  assert (H1 : neighbours_fit domino_v).
  { intros cell [<-|[<-|[]]]; unfold INT_MIN, INT_MAX; simpl; lia. }
  assert (H2 : int_point (mkPoint 1 1)).
  { unfold int_point, INT_MIN, INT_MAX; simpl; lia. }
  split; [exact H1|]. split; [exact H2|].
  exact (X13_isAdjacent_distance_one domino_v (mkPoint 1 1) H1 H2).
Defined.

(** X14.  [getExtensions] misses no growth: for every cell [c] that is not
    occupied in [poly] and is edge-adjacent to a cell of [poly], the shape
    [poly] with [c] added is one of the extensions. *)
Theorem X14_getExtensions_complete : forall (poly : Polyomino) (c : Point),
  isAdjacent poly c = true -> ~ In c (getCells poly) ->
  In (addCell poly c) (getExtensions poly).
Proof.
  intros poly c Hadj Hfree. unfold getExtensions. apply in_map.
  apply isAdjacent_spec in Hadj as (cell & Hcell & dir & Hdir & <-).
  now apply collect_candidates_complete.
Qed.

Lemma X14_witness :
  isAdjacent domino_v (mkPoint (-1) 0) = true /\
  ~ In (mkPoint (-1) 0) (getCells domino_v) /\
  In (addCell domino_v (mkPoint (-1) 0)) (getExtensions domino_v).
Proof.
  assert (H1 : isAdjacent domino_v (mkPoint (-1) 0) = true) by reflexivity.
  assert (H2 : ~ In (mkPoint (-1) 0) (getCells domino_v))
    by (simpl; intuition discriminate).
  split; [exact H1|]. split; [exact H2|].
  exact (X14_getExtensions_complete domino_v (mkPoint (-1) 0) H1 H2).
Defined.

Lemma add_candidate_length : forall poly cell cands dir,
  (List.length (add_candidate poly cell cands dir)
   <= S (List.length cands))%nat.
Proof.
  intros. unfold add_candidate.
  destruct (negb _); [apply set_insert_length|lia].
Qed.

Lemma add_candidate_sorted : forall poly cell cands dir,
  StronglySorted (ltb_of Point Point_ltb) cands ->
  StronglySorted (ltb_of Point Point_ltb) (add_candidate poly cell cands dir).
Proof.
  intros poly cell cands dir H. unfold add_candidate.
  destruct (negb _); [|exact H].
  apply set_insert_sorted; [exact Point_ltb_trans|exact H].
Qed.

Lemma collect_candidates_length : forall poly,
  (List.length (collect_candidates poly) <= 4 * List.length poly)%nat.
Proof.
  intro poly. unfold collect_candidates, getCells.
  assert (G : forall cells cands,
    (List.length
       (fold_left (fun candidates cell =>
          fold_left (add_candidate poly cell) directions candidates)
          cells cands)
     <= List.length cands + 4 * List.length cells)%nat).
  { induction cells as [|c0 cells IH]; intro cands; cbn [fold_left].
    - simpl. lia.
    - etransitivity; [apply IH|]. unfold directions. cbn [fold_left].
      pose proof (add_candidate_length poly c0 cands (mkPoint 0 1)).
      pose proof (add_candidate_length poly c0
                    (add_candidate poly c0 cands (mkPoint 0 1))
                    (mkPoint 0 (-1))).
      pose proof (add_candidate_length poly c0
                    (add_candidate poly c0
                       (add_candidate poly c0 cands (mkPoint 0 1))
                       (mkPoint 0 (-1)))
                    (mkPoint 1 0)).
      pose proof (add_candidate_length poly c0
                    (add_candidate poly c0
                       (add_candidate poly c0
                          (add_candidate poly c0 cands (mkPoint 0 1))
                          (mkPoint 0 (-1)))
                       (mkPoint 1 0))
                    (mkPoint (-1) 0)).
      cbn [List.length]. lia. }
  specialize (G poly []). cbn [List.length] in G. lia.
Qed.

Lemma collect_candidates_sorted : forall poly,
  StronglySorted (ltb_of Point Point_ltb) (collect_candidates poly).
Proof.
  intro poly. unfold collect_candidates.
  apply fold_left_invariant; [constructor|].
  intros cands cell H _.
  apply fold_left_invariant; [exact H|].
  intros cands' dir H' _. now apply add_candidate_sorted.
Qed.

(** X15.  [getExtensions] tries every free neighbouring cell once: its result
    is the list of the shapes [poly] plus [c] for [c] ranging over a list of
    pairwise distinct candidate cells, and it has at most four entries per
    cell of [poly] (none for the empty shape). *)
Theorem X15_getExtensions_candidates : forall poly : Polyomino,
  (List.length (getExtensions poly) <= 4 * size poly)%nat /\
  exists candidates : list Point,
    NoDup candidates /\
    getExtensions poly = map (fun c => addCell poly c) candidates.
Proof.
  intro poly. split.
  - unfold getExtensions, size. rewrite length_map.
    apply collect_candidates_length.
  - exists (collect_candidates poly). split; [|reflexivity].
    apply (strictly_sorted_NoDup _ Point_ltb Point_ltb_irrefl).
    apply collect_candidates_sorted.
Qed.

(** ** The level-wise enumerator *)

Lemma addCell_shape : forall p c,
  connected p -> isAdjacent p c = true ->
  connected (addCell p c) /\ size (addCell p c) = S (size p) /\
  normalized (addCell p c).
Proof.
  intros p c Hp Hadj. apply isAdjacent_spec in Hadj as (q & Hq & Hn).
  unfold addCell, size. split; [|split].
  - apply normalize_connected. now apply connected_add with q.
  - rewrite normalize_length, length_app. simpl. lia.
  - apply normalize_normalized.
Qed.

(** What the two inner loops of [enumerate] put in the next level. *)
Lemma process_level_In : forall t level next total s,
  In s (fst (fold_left (process_shape t) level (next, total))) <->
  In s next \/
  exists shape ext, In shape level /\ In ext (getExtensions shape) /\
                    s = getCanonical t ext.
Proof.
  intros t level. induction level as [|shape level IH]; intros next total s.
  - simpl. split; [tauto|]. intros [H|(sh & ext & [] & _)]. exact H.
  - cbn [fold_left].
    assert (G : forall exts next total,
      In s (fst (fold_left (process_extension t) exts (next, total))) <->
      In s next \/ exists ext, In ext exts /\ s = getCanonical t ext).
    { clear. induction exts as [|e exts IHe]; intros next total.
      - simpl. split; [tauto|]. intros [H|(ext & [] & _)]. exact H.
      - cbn [fold_left process_extension]. rewrite IHe. split.
        + intros [H|(ext & Hext & ->)].
          * apply set_insert_In in H as [->|H]; [|now left].
            right. exists e. split; [now left|reflexivity].
          * right. exists ext. split; [now right|reflexivity].
        + intros [H|(ext & [<-|Hext] & ->)].
          * left. now apply set_insert_In_old.
          * left. apply set_insert_In_new. exact Polyomino_ltb_total.
          * right. eauto. }
    unfold process_shape at 2.
    destruct (fold_left (process_extension t) (getExtensions shape)
                (next, total)) as [next' total'] eqn:E.
    rewrite IH.
    specialize (G (getExtensions shape) next total). rewrite E in G.
    simpl in G. rewrite G. split.
    + intros [[H|(ext & Hext & ->)]|(sh & ext & Hsh & Hext & ->)].
      * now left.
      * right. exists shape, ext. split; [now left|auto].
      * right. exists sh, ext. split; [now right|auto].
    + intros [H|(sh & ext & [<-|Hsh] & Hext & ->)].
      * left. now left.
      * left. right. eauto.
      * right. eauto.
Qed.

Lemma grow_step_level : forall t st size s,
  (S size < List.length (shapes_by_size st))%nat ->
  (In s (nth (S size) (shapes_by_size (grow_step t st size)) []) <->
   exists shape ext, In shape (nth size (shapes_by_size st) []) /\
                     In ext (getExtensions shape) /\ s = getCanonical t ext).
Proof.
  intros t st size s Hlen. unfold grow_step.
  pose proof (process_level_In t (nth size (shapes_by_size st) []) []
                (total_generated st) s) as H.
  destruct (fold_left _ _ _) as [next total].
  cbn [fst shapes_by_size] in *.
  rewrite vec_set_nth_same by exact Hlen. rewrite H.
  split; [intros [[]|H']; exact H'|intro H'; now right].
Qed.

Lemma normalize_NoDup : forall l, NoDup l <-> NoDup (normalize l).
Proof.
  intro l. destruct (normalize_perm_of l) as (dx & dy & HP & _).
  assert (Hinj : forall a b, translate dx dy a = translate dx dy b -> a = b).
  { intros [xa ya] [xb yb] [= E1 E2]. f_equal; lia. }
  split; intro H.
  - apply (Permutation_NoDup (Permutation_sym HP)).
    apply Finite.Injective_map_NoDup; [exact Hinj|exact H].
  - apply (Permutation_NoDup HP) in H. now apply NoDup_map_inv in H.
Qed.

Lemma rotate_cell_injective : forall a b,
  rotate_cell a = rotate_cell b -> a = b.
Proof. intros [xa ya] [xb yb] [= E1 E2]. f_equal; lia. Qed.

Lemma reflect_cell_injective : forall a b,
  reflect_cell a = reflect_cell b -> a = b.
Proof. intros [xa ya] [xb yb] [= E1 E2]. f_equal; lia. Qed.

Lemma rotate_NoDup : forall s, NoDup s -> NoDup (rotate s).
Proof.
  intros s H. unfold rotate, mkPolyomino. apply (proj1 (normalize_NoDup _)).
  apply Finite.Injective_map_NoDup; [exact rotate_cell_injective|exact H].
Qed.

Lemma reflect_NoDup : forall s, NoDup s -> NoDup (reflect s).
Proof.
  intros s H. unfold reflect, mkPolyomino. apply (proj1 (normalize_NoDup _)).
  apply Finite.Injective_map_NoDup; [exact reflect_cell_injective|exact H].
Qed.

Lemma getCanonical_NoDup : forall t s, NoDup s -> NoDup (getCanonical t s).
Proof.
  intros t s Hs.
  apply (variants_of_preserve (@NoDup Point) t s);
    auto using getCanonical_In, rotate_NoDup, reflect_NoDup.
Qed.

Lemma getCanonical_fixed : forall t s,
  normalized s -> getCanonical t (getCanonical t s) = getCanonical t s.
Proof.
  intros t s Hs. apply variants_canonical; [exact Hs|apply getCanonical_In].
Qed.

Lemma getCanonical_single_cell : forall t,
  getCanonical t [mkPoint 0 0] = [mkPoint 0 0].
Proof.
  intro t. unfold getCanonical, variants_of.
  destruct (adds_reflections t); reflexivity.
Qed.

Lemma single_cell_connected : forall c, connected [c].
Proof.
  intros c a b [<-|[]] [<-|[]]. apply rt_refl.
Qed.

Lemma initial_level_In : forall n k s,
  In s (nth k (shapes_by_size (initial_state n)) []) ->
  k = 1%nat /\ s = [mkPoint 0 0].
Proof.
  intros n k s. unfold initial_state. cbn [shapes_by_size].
  destruct n as [|n]; destruct k as [|[|k]]; simpl;
    try tauto; try (destruct k; simpl; tauto).
  - intros [<-|[]]. split; reflexivity.
  - rewrite nth_repeat. intros [].
Qed.

Lemma extension_level_shape : forall t k shape ext,
  level_shape t k shape -> In ext (getExtensions shape) ->
  level_shape t (S k) (getCanonical t ext).
Proof.
  intros t k shape ext (Hsize & Hnorm & Hconn & Hnd & _) Hext.
  apply getExtensions_In in Hext as (c & Hadj & Hfree & ->).
  destruct (addCell_shape shape c Hconn Hadj) as (Hc & Hs & Hn).
  unfold level_shape. split; [|split; [|split; [|split]]].
  - rewrite getCanonical_size, Hs. now rewrite Hsize.
  - now apply getCanonical_normalized.
  - now apply getCanonical_connected.
  - apply getCanonical_NoDup. unfold addCell.
    apply (proj1 (normalize_NoDup _)).
    apply NoDup_app; [exact Hnd|repeat constructor; simpl; tauto|].
    intros x Hx [<-|[]]. contradiction.
  - now apply getCanonical_fixed.
Qed.

(** Every shape of every level has the size of its level, satisfies the
    class invariant, is connected and duplicate-free, and is canonical. *)
Lemma level_sound : forall t n j,
  (j < n)%nat -> forall k s,
  In s (nth k (shapes_by_size (state_after t n j)) []) ->
  (1 <= k <= S j)%nat /\ level_shape t k s.
Proof.
  intros t n j. induction j as [|j IH]; intros Hj k s Hin.
  - apply initial_level_In in Hin as [-> ->].
    split; [lia|]. unfold level_shape. split; [|split; [|split; [|split]]].
    + reflexivity.
    + apply normalized_by_fixpoint. reflexivity.
    + apply single_cell_connected.
    + repeat constructor. simpl. tauto.
    + apply getCanonical_single_cell.
  - rewrite state_after_S in Hin.
    assert (Hlen : (S (S j) <
              List.length (shapes_by_size (state_after t n j)))%nat)
      by (rewrite state_after_length; lia).
    destruct (Nat.eq_dec k (S (S j))) as [->|Hk].
    + apply grow_step_level in Hin as (shape & ext & Hsh & Hext & ->);
        [|exact Hlen].
      destruct (IH ltac:(lia) _ _ Hsh) as [_ Hshape].
      split; [lia|]. now apply extension_level_shape with shape.
    + destruct (grow_step_spec t (state_after t n j) (S j) Hlen)
        as (_ & _ & _ & E).
      rewrite E in Hin by exact Hk.
      destruct (IH ltac:(lia) _ _ Hin) as [Hk' Hshape].
      split; [lia|exact Hshape].
Qed.

Lemma enumerate_level : forall config l,
  enumerate config = Some l ->
  (1 <= N config) /\
  l = nth (Z.to_nat (N config))
        (shapes_by_size (state_after (type config) (Z.to_nat (N config))
                                     (Z.to_nat (N config) - 1))) [].
Proof.
  intros config l. unfold enumerate.
  destruct (Z.ltb_spec (N config) 1); [discriminate|].
  intros [= <-]. split; [lia|reflexivity].
Qed.

(** X16.  Every shape [enumerate] returns has exactly [N] cells, satisfies
    the class invariant (sorted, touching both axes), has no repeated cell
    and is edge-connected. *)
Theorem X16_enumerate_shapes_are_polyominoes : forall (config : Config)
    (l : list Polyomino) (s : Polyomino),
  enumerate config = Some l -> In s l ->
  Z.of_nat (size s) = N config /\ normalized s /\ NoDup s /\ connected s.
Proof.
  intros config l s E Hin. apply enumerate_level in E as [HN ->].
  apply level_sound in Hin as [_ (Hs & Hn & Hc & Hd & _)]; [|lia].
  split; [rewrite Hs; lia|]. split; [exact Hn|]. split; assumption.
Qed.

Lemma X16_witness :
  enumerate (mkConfig 3 "free")
    = Some [[mkPoint 0 0; mkPoint 0 1; mkPoint 0 2];
            [mkPoint 0 0; mkPoint 0 1; mkPoint 1 0]] /\
  connected [mkPoint 0 0; mkPoint 0 1; mkPoint 1 0].
Proof.
  assert (E : enumerate (mkConfig 3 "free")
    = Some [[mkPoint 0 0; mkPoint 0 1; mkPoint 0 2];
            [mkPoint 0 0; mkPoint 0 1; mkPoint 1 0]]) by reflexivity.
  split; [exact E|].
  refine (proj2 (proj2 (proj2
    (X16_enumerate_shapes_are_polyominoes _ _ _ E _)))).
  simpl. tauto.
Defined.

(** X17.  Every shape [enumerate] returns is its own canonical form under
    the configured enumeration type. *)
Theorem X17_enumerate_shapes_are_canonical : forall (config : Config)
    (l : list Polyomino) (s : Polyomino),
  enumerate config = Some l -> In s l ->
  getCanonical (type config) s = s.
Proof.
  intros config l s E Hin. apply enumerate_level in E as [HN ->].
  apply level_sound in Hin as [_ (_ & _ & _ & _ & Hc)]; [exact Hc|lia].
Qed.

Lemma X17_witness :
  enumerate (mkConfig 2 "free") = Some [domino_v] /\
  getCanonical "free" domino_v = domino_v.
Proof.
  assert (E : enumerate (mkConfig 2 "free") = Some [domino_v])
    by reflexivity.
  split; [exact E|].
  refine (X17_enumerate_shapes_are_canonical _ _ _ E _). simpl. tauto.
Defined.

(** X18.  The vector [enumerate] returns is strictly increasing in the order
    of [Polyomino::operator<]; in particular no shape occurs twice. *)
Theorem X18_enumerate_sorted_distinct : forall (config : Config)
    (l : list Polyomino),
  enumerate config = Some l ->
  StronglySorted (fun a b => Polyomino_ltb a b = true) l /\ NoDup l.
Proof.
  intros config l E. split; [|now apply enumerate_NoDup with config].
  apply enumerate_level in E as [HN ->].
  set (n := Z.to_nat (N config)).
  pose proof (state_after_sets (type config) n (n - 1)) as H.
  rewrite Forall_forall in H.
  destruct (nth_in_or_default n
              (shapes_by_size (state_after (type config) n (n - 1))) [])
    as [Hin| ->]; [now apply H|constructor].
Qed.

Lemma X18_witness :
  enumerate (mkConfig 4 "free") = Some free_tetrominoes /\
  StronglySorted (fun a b => Polyomino_ltb a b = true) free_tetrominoes /\
  NoDup free_tetrominoes.
Proof.
  assert (E : enumerate (mkConfig 4 "free") = Some free_tetrominoes)
    by reflexivity.
  split; [exact E|].
  exact (X18_enumerate_sorted_distinct _ _ E).
Defined.


(** ** Completeness of the enumeration *)

Lemma isometry_id : isometry (fun c => c).
Proof.
  split; [|split; auto].
  intros dx dy. exists dx, dy. reflexivity.
Qed.

Lemma isometry_rotate_cell : isometry rotate_cell.
Proof.
  split; [exact rotate_cell_equivariant|].
  split; [exact rotate_cell_injective|exact neighbour_rotate_cell].
Qed.

Lemma isometry_reflect_cell : isometry reflect_cell.
Proof.
  split; [exact reflect_cell_equivariant|].
  split; [exact reflect_cell_injective|exact neighbour_reflect_cell].
Qed.

Lemma isometry_compose : forall f g,
  isometry f -> isometry g -> isometry (fun c => f (g c)).
Proof.
  intros f g (Ef & If & Nf) (Eg & Ig & Ng). split; [|split].
  - now apply equivariant_compose.
  - intros a b H. auto.
  - intros a b H. auto.
Qed.

Lemma variant_maps_isometry : forall t f, In f (variant_maps t) -> isometry f.
Proof.
  intros t f Hf. unfold variant_maps, rotation_maps in Hf.
  destruct (adds_reflections t); simpl in Hf;
    repeat (destruct Hf as [<-|Hf];
            [ repeat first [ exact isometry_id
                           | exact isometry_rotate_cell
                           | exact isometry_reflect_cell
                           | apply isometry_compose ] | ]);
    destruct Hf.
Qed.

(** The variants of a normalized shape are its images under these maps. *)
Lemma variants_of_images : forall t s,
  normalized s ->
  variants_of t s = map (fun f => image f s) (variant_maps t).
Proof.
  intros t s Hs. unfold variants_of, variant_maps, rotation_maps.
  destruct (adds_reflections t); simpl;
    change rotate with (image rotate_cell);
    change reflect with (image reflect_cell);
    rewrite ?image_image by equivariance;
    rewrite (image_id s Hs); reflexivity.
Qed.

(** Growing a variant of a shape by the image of a cell gives the same
    variant of the grown shape. *)
Lemma growth_transport : forall f q c,
  isometry f -> ~ In c q -> (exists q0, In q0 q /\ neighbour q0 c) ->
  exists c',
    isAdjacent (image f (normalize q)) c' = true /\
    ~ In c' (image f (normalize q)) /\
    addCell (image f (normalize q)) c' = image f (normalize (q ++ [c])).
Proof.
  intros f q c (Ef & If & Nf) Hfree (q0 & Hq0 & Hn).
  unfold image, mkPolyomino, addCell. rewrite !image_normalize by exact Ef.
  destruct (normalize_perm_of (map f q)) as (dx & dy & HP & _).
  exists (translate dx dy (f c)). split; [|split].
  - apply isAdjacent_spec. exists (translate dx dy (f q0)). split.
    + apply (Permutation_in _ (Permutation_sym HP)). now do 2 apply in_map.
    + apply neighbour_translate. now apply Nf.
  - intro Hin. apply (Permutation_in _ HP) in Hin.
    apply in_map_iff in Hin as (x & E & Hx).
    apply in_map_iff in Hx as (z & <- & Hz).
    assert (f z = f c) as E'.
    { destruct (f z) as [x1 y1], (f c) as [x2 y2].
      unfold translate in E; simpl in E. injection E as E1 E2.
      f_equal; lia. }
    apply If in E'. subst z. contradiction.
  - apply (normalize_perm_translate _ _ dx dy).
    rewrite !map_app. simpl. now apply Permutation_app_tail.
Qed.

Lemma final_level_one : forall t n,
  (1 <= n)%nat -> In [mkPoint 0 0] (final_level t n 1).
Proof.
  intros t n Hn. unfold final_level.
  rewrite (state_after_frozen t n 0 (n - 1) 0) by lia.
  unfold state_after, initial_state. cbn [seq fold_left shapes_by_size].
  destruct n as [|n]; [lia|]. simpl. now left.
Qed.

Lemma final_level_grow : forall t n k shape ext,
  (1 <= k)%nat -> (k < n)%nat ->
  In shape (final_level t n k) -> In ext (getExtensions shape) ->
  In (getCanonical t ext) (final_level t n (S k)).
Proof.
  intros t n k shape ext Hk Hn Hshape Hext. unfold final_level in *.
  destruct k as [|i]; [lia|].
  rewrite (state_after_frozen t n i (n - 1) i) in Hshape by lia.
  rewrite (state_after_frozen t n (S i) (n - 1) (S i)) by lia.
  rewrite state_after_S. apply grow_step_level.
  - rewrite state_after_length; lia.
  - eauto.
Qed.

Lemma normalize_single_cell : forall c, normalize [c] = [mkPoint 0 0].
Proof.
  intros [x y]. unfold normalize, min_x_of, min_y_of. simpl.
  rewrite !Z.min_id, !Z.sub_diag. reflexivity.
Qed.

(** The canonical form of every grown cell list is in the level of its
    size. *)
Lemma grown_in_level : forall t n q,
  grown q -> (List.length q <= n)%nat ->
  In (getCanonical t (normalize q)) (final_level t n (List.length q)).
Proof.
  intros t n q Hq. induction Hq as [c|q c Hq IH Hfree Hadj]; intro Hlen.
  - rewrite normalize_single_cell, getCanonical_single_cell.
    simpl in *. now apply final_level_one.
  - rewrite length_app in *. simpl in Hlen.
    replace (List.length q + List.length [c])%nat with (S (List.length q))
      by (simpl; lia).
    specialize (IH ltac:(lia)).
    pose proof (normalize_normalized q) as Hnq.
    pose proof (getCanonical_In t (normalize q)) as Hv.
    rewrite (variants_of_images t _ Hnq) in Hv.
    apply in_map_iff in Hv as (f & Ef & Hf).
    destruct (growth_transport f q c (variant_maps_isometry t f Hf)
                Hfree Hadj) as (c' & Ha & Hn & E).
    rewrite Ef in Ha, Hn, E.
    assert (Hext : In (addCell (getCanonical t (normalize q)) c')
                      (getExtensions (getCanonical t (normalize q)))).
    { unfold getExtensions. apply in_map.
      apply isAdjacent_spec in Ha as (cell & Hcell & dir & Hdir & <-).
      now apply collect_candidates_complete. }
    assert (Hq1 : (1 <= List.length q)%nat).
    { destruct Hq; simpl; [lia|]. rewrite length_app. simpl. lia. }
    pose proof (final_level_grow t n _ _ _ Hq1 ltac:(lia) IH Hext) as Hin.
    rewrite E in Hin.
    rewrite (variants_canonical t (normalize (q ++ [c]))) in Hin;
      [exact Hin|apply normalize_normalized|].
    rewrite (variants_of_images t _ (normalize_normalized (q ++ [c]))).
    apply in_map_iff. exists f. split; [reflexivity|exact Hf].
Qed.

Lemma Point_eq_dec : forall a b : Point, {a = b} + {a <> b}.
Proof. decide equality; apply Z.eq_dec. Qed.

Lemma grown_NoDup : forall q, grown q -> NoDup q.
Proof.
  intros q Hq. induction Hq as [c|q c Hq IH Hfree _].
  - repeat constructor. simpl. tauto.
  - apply NoDup_app; [exact IH|repeat constructor; simpl; tauto|].
    intros x Hx [<-|[]]. contradiction.
Qed.

(** A chain of moves that leaves a set of cells crosses its border. *)
Lemma crossing : forall (seen q : list Point) a b,
  clos_refl_trans Point (step q) a b -> In a seen -> ~ In b seen ->
  exists u v, In u seen /\ ~ In v seen /\ In v q /\ neighbour u v.
Proof.
  intros seen q a b H. apply Operators_Properties.clos_rt_rt1n in H.
  induction H as [a|a y b (Ha & Hy & Hn) Hrest IH]; intros HaS HbS.
  - contradiction.
  - destruct (in_dec Point_eq_dec y seen) as [HyS|HyS].
    + now apply IH.
    + exists a, y. auto.
Qed.

Lemma find_outside : forall q seen : list Point,
  incl q seen \/ exists b, In b q /\ ~ In b seen.
Proof.
  induction q as [|a q IH]; intro seen.
  - left. intros x [].
  - destruct (in_dec Point_eq_dec a seen) as [Ha|Ha].
    + destruct (IH seen) as [H|(b & Hb & HbS)].
      * left. intros x [<-|Hx]; auto.
      * right. exists b. split; [now right|exact HbS].
    + right. exists a. split; [now left|exact Ha].
Qed.

Lemma grow_all : forall q,
  NoDup q -> connected q ->
  forall m seen, grown seen -> incl seen q ->
    List.length q = (List.length seen + m)%nat ->
    exists q', grown q' /\ Permutation q' q.
Proof.
  intros q Hnd Hconn. induction m as [|m IH]; intros seen HS Hincl Hlen.
  - exists seen. split; [exact HS|].
    apply NoDup_Permutation_bis; [now apply grown_NoDup|lia|exact Hincl].
  - destruct (find_outside q seen) as [H|(b & Hb & HbS)].
    + apply (NoDup_incl_length Hnd) in H. lia.
    + assert (exists a, In a seen) as (a & Ha).
      { destruct HS as [c|seen c _ _ _]; [exists c; now left|].
        exists c. apply in_or_app. right. now left. }
      destruct (crossing seen q a b (Hconn a b (Hincl a Ha) Hb) Ha HbS)
        as (u & v & Hu & Hv & Hvq & Hn).
      apply (IH (seen ++ [v])).
      * apply grown_add; eauto.
      * intros x Hx. apply in_app_or in Hx as [Hx|[<-|[]]]; auto.
      * rewrite length_app. simpl. lia.
Qed.

(** Every connected duplicate-free cell list can be grown cell by cell. *)
Lemma connected_grown : forall q,
  NoDup q -> connected q -> q <> [] ->
  exists q', grown q' /\ Permutation q' q.
Proof.
  intros q Hnd Hconn Hne. destruct q as [|c q]; [contradiction|].
  apply (grow_all (c :: q) Hnd Hconn (List.length q) [c]).
  - constructor.
  - intros x [<-|[]]. now left.
  - simpl. lia.
Qed.

Lemma enumerate_complete : forall config l q,
  enumerate config = Some l ->
  NoDup q -> connected q -> Z.of_nat (List.length q) = N config ->
  In (getCanonical (type config) (mkPolyomino q)) l.
Proof.
  intros config l q E Hnd Hconn Hlen.
  apply enumerate_level in E as [HN ->].
  assert (Hne : q <> []) by (intros ->; simpl in Hlen; lia).
  destruct (connected_grown q Hnd Hconn Hne) as (q' & Hq' & HP).
  unfold mkPolyomino. rewrite <- (normalize_perm _ _ HP).
  replace (Z.to_nat (N config)) with (List.length q')
    by (rewrite (Permutation_length HP); lia).
  apply grown_in_level; [exact Hq'|lia].
Qed.

(** X19.  [enumerate] returns exactly the canonical forms of the connected
    figures of [N] cells: a shape is in the result if and only if it is the
    canonical form of the shape built from some duplicate-free, edge-connected
    list of [N] cells, wherever that list lies on the grid. *)
Theorem X19_enumerate_exact : forall (config : Config) (l : list Polyomino)
    (s : Polyomino),
  enumerate config = Some l ->
  (In s l <->
   exists q : list Point,
     NoDup q /\ connected q /\ Z.of_nat (List.length q) = N config /\
     s = getCanonical (type config) (mkPolyomino q)).
Proof.
  intros config l s E. split.
  - intro Hin. pose proof E as E'. apply enumerate_level in E' as [HN ->].
    apply level_sound in Hin as [_ (Hs & Hn & Hc & Hd & Hcan)]; [|lia].
    exists s. unfold mkPolyomino. rewrite (normalized_fixpoint s Hn).
    repeat split; auto. unfold size in Hs. rewrite Hs. lia.
  - intros (q & Hd & Hc & Hlen & ->). now apply enumerate_complete.
Qed.

Lemma X19_witness :
  enumerate (mkConfig 2 "free") = Some [domino_v] /\
  (In domino_v [domino_v] <->
   exists q : list Point,
     NoDup q /\ connected q /\ Z.of_nat (List.length q) = 2 /\
     domino_v = getCanonical "free" (mkPolyomino q)).
Proof.
  assert (E : enumerate (mkConfig 2 "free") = Some [domino_v])
    by reflexivity.
  split; [exact E|].
  exact (X19_enumerate_exact (mkConfig 2 "free") [domino_v] domino_v E).
Defined.

(** ** Rendering *)

Section RunningMax.
Variable key : Point -> Z.

Lemma running_max_bound : forall cells init,
  let m := fold_left (fun m p => Z.max m (key p)) cells init in
  init <= m /\ forall c, In c cells -> key c <= m.
Proof.
  induction cells as [|c cells IH]; intro init; simpl.
  - split; [lia|intros c []].
  - destruct (IH (Z.max init (key c))) as [H1 H2]. split; [lia|].
    intros c' [<-|Hc']; [lia|auto].
Qed.
End RunningMax.

Lemma normalized_nonneg : forall s c,
  normalized s -> In c s -> 0 <= px c /\ 0 <= py c.
Proof.
  intros s c [_ Hmin] Hc.
  destruct Hmin as [[Hx _] [Hy _]]; [intros ->; destruct Hc|].
  split; auto.
Qed.

Lemma vec_set_nth : forall (A : Type) (i j : nat) (x d : A) (v : list A),
  (i < List.length v)%nat ->
  nth j (vec_set i x v) d = if Nat.eqb j i then x else nth j v d.
Proof.
  intros A i j x d v Hi. destruct (Nat.eqb_spec j i) as [->|Hne].
  - now apply vec_set_nth_same.
  - apply vec_set_nth_other. congruence.
Qed.

Lemma grid_dims_row : forall grid h w y,
  grid_dims grid h w -> (y < h)%nat -> List.length (nth y grid []) = w.
Proof.
  intros grid h w y [Hh Hw] Hy. rewrite Forall_forall in Hw.
  apply Hw, nth_In. lia.
Qed.

Lemma vec_set_overflow : forall (A : Type) (i : nat) (x : A) (v : list A),
  (List.length v <= i)%nat -> vec_set i x v = v.
Proof.
  intros A i x v. revert i.
  induction v as [|y v IH]; intros [|i] H; simpl in *; try reflexivity;
    try lia.
  f_equal. apply IH. lia.
Qed.

Lemma grid_mark_dims : forall grid h w p,
  grid_dims grid h w -> grid_dims (grid_mark grid p) h w.
Proof.
  intros grid h w p Hd. pose proof Hd as [Hh Hw]. unfold grid_mark.
  destruct (_ || _); [exact Hd|].
  destruct (Nat.lt_ge_cases (Z.to_nat (py p)) h) as [Hy|Hy].
  - split; [now rewrite vec_set_length|].
    apply vec_set_Forall; [|exact Hw]. rewrite vec_set_length.
    now apply grid_dims_row with h.
  - rewrite vec_set_overflow by lia. exact Hd.
Qed.

Lemma grid_mark_at : forall grid h w p x y,
  grid_dims grid h w ->
  0 <= px p -> 0 <= py p ->
  (Z.to_nat (px p) < w)%nat -> (Z.to_nat (py p) < h)%nat ->
  grid_at (grid_mark grid p) x y =
  if (px p =? Z.of_nat x) && (py p =? Z.of_nat y) then "#"%char
  else grid_at grid x y.
Proof.
  intros grid h w p x y Hd Hx Hy Hw Hh. unfold grid_mark, grid_at.
  destruct (Z.ltb_spec (px p) 0); [lia|].
  destruct (Z.ltb_spec (py p) 0); [lia|]. cbn [orb].
  pose proof Hd as [Hlen _].
  rewrite (vec_set_nth _ (Z.to_nat (py p)) y) by lia.
  destruct (Nat.eqb_spec y (Z.to_nat (py p))) as [->|Hne].
  - rewrite (vec_set_nth _ (Z.to_nat (px p)) x)
      by (rewrite (grid_dims_row grid h w) by assumption; exact Hw).
    replace (py p =? Z.of_nat (Z.to_nat (py p))) with true
      by (symmetry; apply Z.eqb_eq; lia).
    rewrite andb_true_r.
    destruct (Nat.eqb_spec x (Z.to_nat (px p))) as [->|Hnx].
    + replace (px p =? Z.of_nat (Z.to_nat (px p))) with true
        by (symmetry; apply Z.eqb_eq; lia).
      reflexivity.
    + replace (px p =? Z.of_nat x) with false
        by (symmetry; apply Z.eqb_neq; lia).
      reflexivity.
  - replace (py p =? Z.of_nat y) with false
      by (symmetry; apply Z.eqb_neq; lia).
    now rewrite andb_false_r.
Qed.

Lemma grid_marks_at : forall cells grid h w x y,
  grid_dims grid h w ->
  (forall p, In p cells ->
     0 <= px p /\ 0 <= py p /\
     (Z.to_nat (px p) < w)%nat /\ (Z.to_nat (py p) < h)%nat) ->
  grid_dims (fold_left grid_mark cells grid) h w /\
  grid_at (fold_left grid_mark cells grid) x y =
  if marked cells x y then "#"%char else grid_at grid x y.
Proof.
  induction cells as [|p cells IH]; intros grid h w x y Hd Hcells.
  - split; [exact Hd|reflexivity].
  - cbn [fold_left]. unfold marked. cbn [existsb]. fold (marked cells x y).
    destruct (Hcells p ltac:(now left)) as (Hx & Hy & Hw & Hh).
    destruct (IH (grid_mark grid p) h w x y) as [Hd' E].
    + now apply grid_mark_dims.
    + intros q Hq. apply Hcells. now right.
    + split; [exact Hd'|]. rewrite E.
      rewrite (grid_mark_at grid h w p x y) by assumption.
      destruct (marked cells x y); [now rewrite orb_true_r|].
      now rewrite orb_false_r.
Qed.

Lemma marked_In : forall cells x y,
  marked cells x y = true <-> In (mkPoint (Z.of_nat x) (Z.of_nat y)) cells.
Proof.
  intros cells x y. unfold marked. rewrite existsb_exists. split.
  - intros ([px0 py0] & Hp & E). simpl in E.
    apply andb_true_iff in E as [E1 E2].
    apply Z.eqb_eq in E1, E2. now subst.
  - intro H. eexists. split; [exact H|]. simpl.
    now rewrite !Z.eqb_refl.
Qed.

Lemma blank_grid_dims : forall h w,
  grid_dims (repeat (repeat " "%char w) h) h w.
Proof.
  intros h w. split; [apply repeat_length|].
  apply Forall_forall. intros row Hrow. apply repeat_spec in Hrow.
  subst row. apply repeat_length.
Qed.

Lemma blank_grid_at : forall h w x y,
  grid_at (repeat (repeat " "%char w) h) x y = " "%char.
Proof.
  intros h w x y. unfold grid_at.
  destruct (Nat.lt_ge_cases y h) as [Hy|Hy].
  - rewrite nth_repeat_lt by exact Hy.
    destruct (Nat.lt_ge_cases x w) as [Hx|Hx].
    + now rewrite nth_repeat_lt.
    + apply nth_overflow. now rewrite repeat_length.
  - rewrite (nth_overflow (repeat _ h)) by now rewrite repeat_length.
    now destruct x.
Qed.

(** The grid of a normalized shape: its size and its characters. *)
Lemma toString_grid_spec : forall s x y,
  normalized s ->
  grid_dims (toString_grid s) (Z.to_nat (max_y_of s + 1))
            (Z.to_nat (max_x_of s + 1)) /\
  grid_at (toString_grid s) x y =
  if marked s x y then "#"%char else " "%char.
Proof.
  intros s x y Hs. unfold toString_grid, getCells.
  destruct (grid_marks_at s
              (repeat (repeat " "%char (Z.to_nat (max_x_of s + 1)))
                      (Z.to_nat (max_y_of s + 1)))
              (Z.to_nat (max_y_of s + 1)) (Z.to_nat (max_x_of s + 1)) x y)
    as [Hd E].
  - apply blank_grid_dims.
  - intros p Hp. destruct (normalized_nonneg s p Hs Hp) as [Hx Hy].
    destruct (running_max_bound px s 0) as [_ Mx].
    destruct (running_max_bound py s 0) as [_ My].
    specialize (Mx p Hp). specialize (My p Hp).
    unfold max_x_of, max_y_of. repeat split; lia.
  - split; [exact Hd|]. rewrite E. now rewrite blank_grid_at.
Qed.

Lemma join_rows : forall (grid : list (list ascii)) (acc : list ascii),
  fold_left (fun result row => result ++ row ++ [newline]) grid acc =
  acc ++ List.concat (map (fun row => row ++ [newline]) grid).
Proof.
  induction grid as [|row grid IH]; intro acc; simpl.
  - now rewrite app_nil_r.
  - rewrite IH. now rewrite <- !app_assoc.
Qed.

Lemma concat_uniform_length : forall (A : Type) (g : list (list A)) w,
  Forall (fun r => List.length r = w) g ->
  List.length (List.concat g) = (List.length g * w)%nat.
Proof.
  intros A g w H. induction H as [|r g Hr _ IH]; simpl; [reflexivity|].
  rewrite length_app, IH, Hr. reflexivity.
Qed.

Lemma concat_uniform_nth : forall (A : Type) (g : list (list A)) w,
  Forall (fun r => List.length r = w) g ->
  forall y x d, (y < List.length g)%nat -> (x < w)%nat ->
  nth (y * w + x) (List.concat g) d = nth x (nth y g []) d.
Proof.
  intros A g w H. induction H as [|r g Hr _ IH]; intros y x d Hy Hx.
  - simpl in Hy. lia.
  - destruct y as [|y]; simpl.
    + apply app_nth1. lia.
    + replace (w + y * w + x)%nat with (List.length r + (y * w + x))%nat
        by lia.
      rewrite app_nth2_plus. apply IH; [simpl in Hy; lia|exact Hx].
Qed.

Lemma toString_eq : forall s,
  s <> [] ->
  toString s =
  List.concat (map (fun row => row ++ [newline]) (toString_grid s)).
Proof.
  intros [|c s] Hne; [contradiction|]. unfold toString, getCells.
  now rewrite join_rows.
Qed.

Lemma lines_nth : forall (grid : list (list ascii)) y,
  (y < List.length grid)%nat ->
  nth y (map (fun row => row ++ [newline]) grid) [] =
  nth y grid [] ++ [newline].
Proof.
  intros grid y Hy.
  rewrite (nth_indep _ [] ([] ++ [newline])) by (rewrite length_map; lia).
  apply (map_nth (fun row => row ++ [newline])).
Qed.

Lemma lines_uniform : forall (grid : list (list ascii)) h w,
  grid_dims grid h w ->
  Forall (fun r => List.length r = S w)
         (map (fun row => row ++ [newline]) grid).
Proof.
  intros grid h w [_ Hw]. apply Forall_map.
  rewrite Forall_forall in *. intros r Hr.
  rewrite length_app, (Hw r Hr). simpl. lia.
Qed.

(** X20.  For a non-empty normalized shape whose greatest coordinates
    [max_x] and [max_y] are below [INT_MAX] (so that [max_x + 1] and
    [max_y + 1] do not overflow), [toString] returns [max_y + 1] lines of
    [max_x + 1] characters, each followed by a line feed: the string has
    [(max_y + 1) * (max_x + 2)] characters and a line feed ends every line. *)
Theorem X20_toString_layout : forall s : Polyomino,
  normalized s -> s <> [] -> box_fits s ->
  let w := Z.to_nat (max_x_of s + 1) in
  let h := Z.to_nat (max_y_of s + 1) in
  List.length (toString s) = (h * (w + 1))%nat /\
  forall y, (y < h)%nat ->
    nth (y * (w + 1) + w) (toString s) " "%char = newline.
Proof.
  intros s Hs Hne _ w h.
  destruct (toString_grid_spec s 0 0 Hs) as [Hd _]. fold w h in Hd.
  pose proof (lines_uniform _ _ _ Hd) as Hu.
  pose proof Hd as [Hh Hw].
  rewrite (toString_eq s Hne). replace (w + 1)%nat with (S w) by lia. split.
  - rewrite (concat_uniform_length _ _ _ Hu), length_map, Hh. reflexivity.
  - intros y Hy.
    rewrite (concat_uniform_nth _ _ _ Hu) by (rewrite ?length_map; lia).
    rewrite (lines_nth _ y) by lia.
    rewrite app_nth2; rewrite (grid_dims_row _ h w y Hd Hy); [|lia].
    now rewrite Nat.sub_diag.
Qed.

Lemma tromino_l_box_fits : box_fits tromino_l.
Proof. split; reflexivity. Qed.

Lemma X20_witness :
  normalized tromino_l /\ tromino_l <> [] /\ box_fits tromino_l /\
  List.length (toString tromino_l) = 6%nat.
Proof.
  assert (Hne : tromino_l <> []) by discriminate.
  split; [exact tromino_l_normalized|]. split; [exact Hne|].
  split; [exact tromino_l_box_fits|].
  exact (proj1 (X20_toString_layout tromino_l tromino_l_normalized Hne
                  tromino_l_box_fits)).
Defined.

(** X21.  In the string [toString] returns for a non-empty normalized shape
    whose greatest coordinates are below [INT_MAX], the character in column
    [x] of line [y] is ['#'] when [(x, y)] is a cell of the shape and a blank
    otherwise. *)
Theorem X21_toString_cells : forall (s : Polyomino) (x y : nat),
  normalized s -> s <> [] -> box_fits s ->
  let w := Z.to_nat (max_x_of s + 1) in
  let h := Z.to_nat (max_y_of s + 1) in
  (x < w)%nat -> (y < h)%nat ->
  nth (y * (w + 1) + x) (toString s) newline =
  if existsb (Point_eqb (mkPoint (Z.of_nat x) (Z.of_nat y))) (getCells s)
  then "#"%char else " "%char.
Proof.
  intros s x y Hs Hne _ w h Hx Hy.
  destruct (toString_grid_spec s x y Hs) as [Hd E]. fold w h in Hd.
  pose proof (lines_uniform _ _ _ Hd) as Hu.
  pose proof Hd as [Hh Hw].
  rewrite (toString_eq s Hne). replace (w + 1)%nat with (S w) by lia.
  rewrite (concat_uniform_nth _ _ _ Hu) by (rewrite ?length_map; lia).
  rewrite (lines_nth _ y) by lia.
  rewrite app_nth1 by (rewrite (grid_dims_row _ h w y Hd Hy); exact Hx).
  rewrite (nth_indep _ newline " "%char)
    by (rewrite (grid_dims_row _ h w y Hd Hy); exact Hx).
  fold (grid_at (toString_grid s) x y). rewrite E.
  replace (existsb (Point_eqb (mkPoint (Z.of_nat x) (Z.of_nat y)))
                   (getCells s))
    with (marked s x y); [reflexivity|].
  unfold getCells.
  destruct (marked s x y) eqn:M; symmetry.
  - apply marked_In in M. apply existsb_exists.
    eexists. split; [exact M|]. now apply Point_eqb_eq.
  - apply not_true_iff_false. intro H. apply not_true_iff_false in M.
    apply M, marked_In. apply existsb_exists in H as (p & Hp & E').
    apply Point_eqb_eq in E'. now subst p.
Qed.

Lemma X21_witness :
  normalized tromino_l /\ tromino_l <> [] /\ box_fits tromino_l /\
  nth 3 (toString tromino_l) newline = " "%char.
Proof.
  assert (Hne : tromino_l <> []) by discriminate.
  split; [exact tromino_l_normalized|]. split; [exact Hne|].
  split; [exact tromino_l_box_fits|].
  refine (X21_toString_cells tromino_l 0 1 tromino_l_normalized Hne
            tromino_l_box_fits _ _).
  - vm_compute. lia.
  - vm_compute. lia.
Defined.

(** ** Validation against the known values *)

Lemma validate_loop_other_type : forall n type count tests,
  (forall test, In test tests -> TestCase.t test <> type) ->
  validate_loop n type count tests = NoValidationData.
Proof.
  intros n type count tests. induction tests as [|test tests IH]; intro H.
  - reflexivity.
  - simpl. destruct (String.eqb_spec (TestCase.t test) type) as [E|_].
    + exfalso. apply (H test); [now left|exact E].
    + rewrite andb_false_r. apply IH. intros t' Ht'. apply H. now right.
Qed.

Lemma known_values_free : forall test,
  In test known_values -> TestCase.t test = "free"%string.
Proof.
  intros test H. unfold known_values in H. simpl in H.
  repeat (destruct H as [<-|H]; [reflexivity|]). destruct H.
Qed.

Lemma validate_loop_other_size : forall n type count tests,
  (forall test, In test tests -> TestCase.n test <> n) ->
  validate_loop n type count tests = NoValidationData.
Proof.
  intros n type count tests. induction tests as [|test tests IH]; intro H.
  - reflexivity.
  - simpl. destruct (Z.eqb_spec (TestCase.n test) n) as [E|_].
    + exfalso. apply (H test); [now left|exact E].
    + cbn [andb]. apply IH. intros t' Ht'. apply H. now right.
Qed.

Lemma validate_loop_found : forall n type count tests,
  (exists test, In test tests /\ TestCase.n test = n /\
                TestCase.t test = type) ->
  validate_loop n type count tests <> NoValidationData.
Proof.
  intros n type count tests. induction tests as [|test tests IH].
  - intros (test & [] & _).
  - intros (test' & Hin & En & Et). simpl.
    destruct ((TestCase.n test =? n) && String.eqb (TestCase.t test) type)
      eqn:Hm.
    + destruct (count =? TestCase.expected test); discriminate.
    + apply IH. destruct Hin as [->|Hin]; [|eauto].
      rewrite En, Et, Z.eqb_refl, String.eqb_refl in Hm. discriminate.
Qed.

Lemma known_values_range : forall test,
  In test known_values -> 1 <= TestCase.n test <= 28.
Proof.
  intros test H. unfold known_values in H. simpl in H.
  repeat (destruct H as [<-|H]; [simpl; lia|]). destruct H.
Qed.

Lemma known_values_has : forall n,
  1 <= n <= 28 ->
  exists expected, In (TestCase.mk n "free" expected) known_values.
Proof.
  intros n Hn.
  assert (Hcases :
      n = 1 \/ n = 2 \/ n = 3 \/ n = 4 \/ n = 5 \/ n = 6 \/ n = 7 \/
      n = 8 \/ n = 9 \/ n = 10 \/ n = 11 \/ n = 12 \/ n = 13 \/ n = 14 \/
      n = 15 \/ n = 16 \/ n = 17 \/ n = 18 \/ n = 19 \/ n = 20 \/ n = 21 \/
      n = 22 \/ n = 23 \/ n = 24 \/ n = 25 \/ n = 26 \/ n = 27 \/ n = 28)
    by lia.
  unfold known_values.
  repeat (destruct Hcases as [->|Hcases];
          [ eexists; repeat first [ left; reflexivity | right ] | ]).
  subst n. eexists; repeat first [ left; reflexivity | right ].
Qed.

(** X22.  [validateResults] has data exactly for the type "free" and the
    sizes 1 to 28: for every other type or size it reports that no
    validation data is available, whatever the count. *)
Theorem X22_validateResults_no_data : forall (n : Z) (type : string)
    (count : Z),
  validateResults n type count = NoValidationData <->
  (type <> "free"%string \/ n < 1 \/ 28 < n).
Proof.
  intros n type count. unfold validateResults. split.
  - intro H.
    destruct (String.eqb_spec type "free") as [->|Hne]; [|now left].
    right. destruct (Z.ltb_spec n 1) as [|H1]; [now left|].
    destruct (Z.ltb_spec 28 n) as [|H28]; [now right|].
    exfalso. revert H. apply validate_loop_found.
    destruct (known_values_has n ltac:(lia)) as (e & He).
    exists (TestCase.mk n "free" e). auto.
  - intros [Hne|Hn].
    + apply validate_loop_other_type. intros test Ht.
      rewrite (known_values_free test Ht). congruence.
    + apply validate_loop_other_size. intros test Ht.
      pose proof (known_values_range test Ht). lia.
Qed.

Lemma validate_loop_passed_In : forall n type count tests,
  validate_loop n type count tests = ValidationPassed ->
  In (TestCase.mk n type count) tests.
Proof.
  intros n type count tests. induction tests as [|test tests IH]; simpl.
  - discriminate.
  - destruct (Z.eqb_spec (TestCase.n test) n) as [En|_]; cbn [andb].
    + destruct (String.eqb_spec (TestCase.t test) type) as [Et|_].
      * destruct (Z.eqb_spec count (TestCase.expected test)) as [Ec|_];
          [|discriminate].
        intros _. left. destruct test as [n0 t0 e0]. simpl in *. now subst.
      * intro H. right. now apply IH.
    + intro H. right. now apply IH.
Qed.

Lemma validate_loop_In_passed : forall n type count tests,
  NoDup (map TestCase.n tests) ->
  In (TestCase.mk n type count) tests ->
  validate_loop n type count tests = ValidationPassed.
Proof.
  intros n type count tests. induction tests as [|test tests IH];
    intros Hnd Hin; [destruct Hin|].
  simpl in Hnd. inversion Hnd as [|? ? Hfresh Hnd']; subst.
  simpl. destruct Hin as [->|Hin].
  - simpl. now rewrite !Z.eqb_refl, String.eqb_refl.
  - destruct (Z.eqb_spec (TestCase.n test) n) as [En|_]; cbn [andb].
    + exfalso. apply Hfresh. rewrite En.
      change n with (TestCase.n (TestCase.mk n type count)).
      now apply in_map.
    + now apply IH.
Qed.

Lemma known_values_sizes_distinct : NoDup (map TestCase.n known_values).
Proof.
  unfold known_values. simpl.
  repeat (constructor; [simpl; lia|]). constructor.
Qed.

(** X23.  [validateResults] reports success exactly when the triple of the
    size, the type and the count is an entry of the table of known values. *)
Theorem X23_validateResults_passed : forall (n : Z) (type : string)
    (count : Z),
  validateResults n type count = ValidationPassed <->
  In (TestCase.mk n type count) known_values.
Proof.
  intros n type count. unfold validateResults. split.
  - apply validate_loop_passed_In.
  - apply validate_loop_In_passed. exact known_values_sizes_distinct.
Qed.

(** X24.  For the type "free" and every size from 1 to 8, the number of
    shapes [enumerate] returns is the known value: [validateResults] reports
    success on the enumerator's own output. *)
Theorem X24_enumerate_passes_validation :
  Forall (fun n =>
            exists l, enumerate (mkConfig n "free") = Some l /\
                      validateResults n "free" (Z.of_nat (List.length l))
                      = ValidationPassed)
         [1; 2; 3; 4; 5; 6; 7; 8].
Proof.
  repeat (constructor;
          [ eexists; split; [vm_compute; reflexivity|vm_compute; reflexivity]
          | ]).
  constructor.
Qed.

(** X25.  For a configuration that [validateConfig] accepts,
    [validateResults] has no validation data exactly when the type is not
    "free": every accepted size is covered by the table. *)
Theorem X25_accepted_config_validation : forall (config : Config)
    (count : Z),
  validateConfig config = true ->
  (validateResults (N config) (type config) count = NoValidationData <->
   type config <> "free"%string).
Proof.
  intros config count Hv. unfold validateConfig in Hv.
  destruct (Z.ltb_spec (N config) 1) as [|H1]; [discriminate|].
  destruct (Z.gtb_spec (N config) 20) as [|H20]; [discriminate|].
  clear Hv. unfold validateResults. split.
  - intros H Hfree. revert H. apply validate_loop_found.
    destruct (known_values_has (N config) ltac:(lia)) as (e & He).
    exists (TestCase.mk (N config) "free" e). auto.
  - intro Hne. apply validate_loop_other_type. intros test Ht.
    rewrite (known_values_free test Ht). congruence.
Qed.

Lemma X25_witness :
  validateConfig (mkConfig 4 "one-sided") = true /\
  validateResults 4 "one-sided" 5 = NoValidationData.
Proof.
  assert (Hv : validateConfig (mkConfig 4 "one-sided") = true)
    by reflexivity.
  split; [exact Hv|].
  apply (X25_accepted_config_validation (mkConfig 4 "one-sided") 5 Hv).
  discriminate.
Defined.

(** ** Levels and smaller sizes *)




